(** * Micrograd: a scalar reverse-mode autograd engine and a small MLP

    A shallow embedding of the notebook's [Value], [Neuron], [Layer] and
    [MLP] classes, and of the training loop's use of them.

    - Python floats are idealised as real numbers ([R]): rounding, overflow
      and NaN are outside this development.
    - Python objects have identity and mutable fields: every [Value] lives
      in a heap (a list indexed by allocation order) and is referred to by
      its index; closures capture references, not copies.
    - Exceptions keep the mutations made before they were raised. *)

From Stdlib Require Import Reals Lra Lia.
From stdpp Require Import base gmap sets list strings.

Open Scope R_scope.

#[local] Set Warnings "-clear-no-such-hyp".

(** ** Results of running Python code *)

Inductive exn := AssertionError | ZeroDivisionError | TypeError.

(** [Unmodelled]: the run leaves what is modelled here (a complex number
    becomes the data of a node, or the traversal runs out of fuel, which it
    never does on a heap the operators built). *)
Inductive result (A : Type) :=
  | Ok (a : A)
  | Raise (e : exn)
  | Unmodelled.
Arguments Ok {A} a.
Arguments Raise {A} e.
Arguments Unmodelled {A}.

(** ** Python's [**] on real numbers

    [x ** e] raises ZeroDivisionError for a zero base and a negative
    exponent, and is a complex number for a negative base and a non-integral
    exponent. *)
Definition py_pow (x e : R) : result R :=
  if Req_dec_T x 0 then
    if Rlt_dec e 0 then Raise ZeroDivisionError
    else if Req_dec_T e 0 then Ok 1 else Ok 0
  else if Rlt_dec 0 x then Ok (Rpower x e)
  else if Req_dec_T e (IZR (Int_part e)) then Ok (powerRZ x (Int_part e))
  else Unmodelled.

(** ** The [Value] object *)

Abbreviation ref := nat (only parsing).

(** The closure stored in [_backward], with the variables it captured. *)
Inductive closure :=
  | BwNone                                      (* lambda: None *)
  | BwAdd (self other out : ref)
  | BwMul (self other out : ref)
  | BwPow (self : ref) (other : R) (out : ref)
  | BwTanh (self : ref) (t : R) (out : ref)
  | BwExp (self out : ref).

Inductive optag :=
  | op_none | op_add | op_mul | op_pow (other : R) | op_tanh | op_exp.

Record Value := mkValue {
  data : R;
  grad : R;
  _backward : closure;
  _prev : gset ref;
  _op : optag;
  label : string
}.

#[global] Instance Value_inhabited : Inhabited Value :=
  populate (mkValue 0 0 BwNone ∅ op_none EmptyString).

(** The interpreter state: the heap of [Value] objects and the stream of
    numbers that [random.uniform(-1,1)] will return. *)
Record state := mkState {
  heap : list Value;
  rand : nat -> R
}.

Definition with_heap (f : list Value -> list Value) (s : state) : state :=
  mkState (f (heap s)) (rand s).

(** ** A state monad with exceptions *)

Definition M (A : Type) : Type := state -> result A * state.

Definition ret {A} (a : A) : M A := fun s => (Ok a, s).

Definition bind {A B} (m : M A) (k : A -> M B) : M B := fun s =>
  match m s with
  | (Ok a, s') => k a s'
  | (Raise e, s') => (Raise e, s')
  | (Unmodelled, s') => (Unmodelled, s')
  end.

Definition raise {A} (e : exn) : M A := fun s => (Raise e, s).

Definition lift {A} (r : result A) : M A := fun s => (r, s).

Declare Scope py_scope.
Delimit Scope py_scope with py.
Notation "'let*' x ':=' m 'in' k" := (bind m (fun x => k))
  (at level 10, x name, m at level 100, k at level 200) : py_scope.
Notation "m ';;' k" := (bind m (fun _ => k))
  (at level 100, k at level 200, right associativity) : py_scope.
Open Scope py_scope.

Fixpoint for_each {A} (xs : list A) (body : A -> M unit) : M unit :=
  match xs with
  | [] => ret tt
  | x :: xs' => body x ;; for_each xs' body
  end.

(** ** Field access *)

Definition node (h : list Value) (v : ref) : Value := h !!! v.

Definition get_data (v : ref) : M R := fun s => (Ok (data (node (heap s) v)), s).
Definition get_grad (v : ref) : M R := fun s => (Ok (grad (node (heap s) v)), s).

Definition upd_grad (f : R -> R) (n : Value) : Value :=
  mkValue (data n) (f (grad n)) (_backward n) (_prev n) (_op n) (label n).
Definition upd_backward (c : closure) (n : Value) : Value :=
  mkValue (data n) (grad n) c (_prev n) (_op n) (label n).

Definition alter_node (f : Value -> Value) (v : ref) (h : list Value) : list Value :=
  <[v := f (node h v)]> h.

(** [v.grad = g] *)
Definition set_grad (v : ref) (g : R) : M unit := fun s =>
  (Ok tt, with_heap (alter_node (upd_grad (fun _ => g)) v) s).

(** [v.grad += g] *)
Definition add_grad (v : ref) (g : R) : M unit := fun s =>
  (Ok tt, with_heap (alter_node (upd_grad (fun x => x + g)) v) s).


(** [v._backward = c] *)
Definition set_backward (v : ref) (c : closure) : M unit := fun s =>
  (Ok tt, with_heap (alter_node (upd_backward c) v) s).

(** An argument of an operator: a plain number or a [Value]. *)
Inductive operand := Num (x : R) | Ref (v : ref).

(** ** class Value *)

Module Value.

(** [__init__]: allocates the object with gradient 0 and the no-op closure;
    the children are collected in a set. *)
Definition __init__ (d : R) (_children : list ref) (op : optag) : M ref :=
  fun s =>
    (Ok (length (heap s)),
     with_heap (fun h => h ++ [mkValue d 0 BwNone (list_to_set _children) op EmptyString]) s).

(** [other if isinstance(other, Value) else Value(other)] *)
Definition to_Value (other : operand) : M ref :=
  match other with
  | Ref v => ret v
  | Num x => __init__ x [] op_none
  end.

Definition __add__ (self : ref) (other : operand) : M ref :=
  let* other := to_Value other in
  let* sd := get_data self in
  let* od := get_data other in
  let* out := __init__ (sd + od) [self; other] op_add in
  set_backward out (BwAdd self other out) ;;
  ret out.

Definition __mul__ (self : ref) (other : operand) : M ref :=
  let* other := to_Value other in
  let* sd := get_data self in
  let* od := get_data other in
  let* out := __init__ (sd * od) [self; other] op_mul in
  set_backward out (BwMul self other out) ;;
  ret out.

(** The assertion comes first: nothing is read or allocated before it. *)
Definition __pow__ (self : ref) (other : operand) : M ref :=
  match other with
  | Ref _ => raise AssertionError
  | Num k =>
      let* sd := get_data self in
      let* d := lift (py_pow sd k) in
      let* out := __init__ d [self] (op_pow k) in
      set_backward out (BwPow self k out) ;;
      ret out
  end.

(** [other * self] *)
Definition __rmul__ (self : ref) (other : operand) : M ref := __mul__ self other.

(** [other ** -1] for the right operand of [/]: Python raises a number
    itself, and a [Value] through [__pow__]. *)
Definition pow_operand (other : operand) (k : R) : M operand :=
  match other with
  | Num x => let* y := lift (py_pow x k) in ret (Num y)
  | Ref v => let* r := __pow__ v (Num k) in ret (Ref r)
  end.

(** [self / other]: [self * other**-1] *)
Definition __truediv__ (self : ref) (other : operand) : M ref :=
  let* inv := pow_operand other (-1) in
  __mul__ self inv.

(** [-self]: [self * -1] *)
Definition __neg__ (self : ref) : M ref := __mul__ self (Num (-1)).

(** [-other] for the right operand of [-]. *)
Definition neg_operand (other : operand) : M operand :=
  match other with
  | Num x => ret (Num (- x))
  | Ref v => let* r := __neg__ v in ret (Ref r)
  end.

(** [self - other]: [self + (-other)] *)
Definition __sub__ (self : ref) (other : operand) : M ref :=
  let* neg := neg_operand other in
  __add__ self neg.

(** [other + self] *)
Definition __radd__ (self : ref) (other : operand) : M ref := __add__ self other.

Definition tanh (self : ref) : M ref :=
  let* x := get_data self in
  let t := (exp (2 * x) - 1) / (exp (2 * x) + 1) in
  let* out := __init__ t [self] op_tanh in
  set_backward out (BwTanh self t out) ;;
  ret out.

Definition exp (self : ref) : M ref :=
  let* x := get_data self in
  let* out := __init__ (Rtrigo_def.exp x) [self] op_exp in
  set_backward out (BwExp self out) ;;
  ret out.

(** Calling a stored [_backward] closure. Fields are read when the closure
    runs; [t] of [tanh] and the exponent of [__pow__] were captured when it
    was made. *)
Definition call (c : closure) : M unit :=
  match c with
  | BwNone => ret tt
  | BwAdd self other out =>
      let* g := get_grad out in
      add_grad self (1 * g) ;;
      let* g := get_grad out in
      add_grad other (1 * g)
  | BwMul self other out =>
      let* od := get_data other in
      let* g := get_grad out in
      add_grad self (od * g) ;;
      let* sd := get_data self in
      let* g := get_grad out in
      add_grad other (sd * g)
  | BwPow self other out =>
      let* sd := get_data self in
      let* p := lift (py_pow sd (other - 1)) in
      let* g := get_grad out in
      add_grad self (other * p * g)
  | BwTanh self t out =>
      let* t2 := lift (py_pow t 2) in
      let* g := get_grad out in
      add_grad self ((1 - t2) * g)
  | BwExp self out =>
      let* od := get_data out in
      let* g := get_grad out in
      add_grad self (od * g)
  end.

(** [node._backward()] *)
Definition call_backward (v : ref) : M unit := fun s =>
  call (_backward (node (heap s) v)) s.

Section Backward.

(** The order in which Python iterates over a set is not specified: [iter]
    is any enumeration of the elements. *)
Variable iter : gset ref -> list ref.

(** [build_topo], a closure over [visited] and [topo]; it only reads the
    heap. [fuel] bounds the depth of the recursion. *)
Fixpoint build_topo (fuel : nat) (h : list Value) (v : ref)
    (st : gset ref * list ref) : option (gset ref * list ref) :=
  match fuel with
  | O => None
  | S fuel' =>
      let '(visited, topo) := st in
      if decide (v ∈ visited) then Some st
      else
        let step (acc : option (gset ref * list ref)) (child : ref) :=
          match acc with
          | Some st' => build_topo fuel' h child st'
          | None => None
          end in
        match foldl step (Some ({[v]} ∪ visited, topo)) (iter (_prev (node h v))) with
        | Some (visited', topo') => Some (visited', topo' ++ [v])
        | None => None
        end
  end.

(** The ordering [backward] computes for [self]. *)
Definition topo_of (h : list Value) (self : ref) : option (list ref) :=
  snd <$> build_topo (length h) h self (∅, []).

Definition backward (self : ref) : M unit := fun s =>
  match topo_of (heap s) self with
  | None => (Unmodelled, s)
  | Some topo =>
      (set_grad self 1 ;;
       for_each (reverse topo) call_backward) s
  end.

End Backward.

End Value.

(** ** Python's dispatch of a binary operator

    [l op r] calls [l.__op__(r)] when [l] is a [Value]; a number on the left
    does not know [Value], so Python tries the reflected method of [r], and
    raises TypeError when the class does not define it. *)

Inductive binop := Add | Mul | Sub | Div.

(** The methods class [Value] defines. *)
Definition primary (op : binop) : ref -> operand -> M ref :=
  match op with
  | Add => Value.__add__
  | Mul => Value.__mul__
  | Sub => Value.__sub__
  | Div => Value.__truediv__
  end.

Definition reflected (op : binop) : option (ref -> operand -> M ref) :=
  match op with
  | Add => Some Value.__radd__
  | Mul => Some Value.__rmul__
  | Sub => None
  | Div => None
  end.

(** Arithmetic of two plain numbers. *)
Definition num_binop (op : binop) (x y : R) : result R :=
  match op with
  | Add => Ok (x + y)
  | Mul => Ok (x * y)
  | Sub => Ok (x - y)
  | Div => if Req_dec_T y 0 then Raise ZeroDivisionError else Ok (x / y)
  end.

Definition binary (op : binop) (l r : operand) : M operand :=
  match l, r with
  | Ref a, _ => let* out := primary op a r in ret (Ref out)
  | Num x, Ref a =>
      match reflected op with
      | Some method => let* out := method a (Num x) in ret (Ref out)
      | None => raise TypeError
      end
  | Num x, Num y => let* z := lift (num_binop op x y) in ret (Num z)
  end.

(** The number an operand stands for. *)
Definition operand_value (h : list Value) (o : operand) : R :=
  match o with
  | Num x => x
  | Ref v => data (node h v)
  end.

(** ** Neuron, Layer, MLP *)

(** [random.uniform(-1, 1)]: the next number of the stream. *)
Definition random_uniform : M R := fun s =>
  (Ok (rand s O), mkState (heap s) (fun n => rand s (S n))).

(** [[m for _ in range(n)]] *)
Fixpoint repeat_M {A} (n : nat) (m : M A) : M (list A) :=
  match n with
  | O => ret []
  | S n' => let* x := m in let* xs := repeat_M n' m in ret (x :: xs)
  end.

(** [[f(x) for x in xs]] *)
Fixpoint map_M {A B} (f : A -> M B) (xs : list A) : M (list B) :=
  match xs with
  | [] => ret []
  | x :: xs' => let* y := f x in let* ys := map_M f xs' in ret (y :: ys)
  end.

(** What a layer receives and returns: one [Value], or a list whose items
    are numbers or [Value]s. *)
Inductive pyval := One (v : ref) | Seq (xs : list operand).

Record Neuron := mkNeuron { w : list ref; b : ref }.
Record Layer := mkLayer { neurons : list Neuron }.
Record MLP := mkMLP { layers : list Layer }.

Module Neuron.

Definition __init__ (nin : nat) : M Neuron :=
  let* w := repeat_M nin (let* u := random_uniform in Value.__init__ u [] op_none) in
  let* u := random_uniform in
  let* b := Value.__init__ u [] op_none in
  ret (mkNeuron w b).

(** [sum((wi*xi for wi, xi in pairs), start)]: each product is made when the
    sum asks for it, and added to the running total at once. *)
Fixpoint sum_products (start : ref) (pairs : list (ref * operand)) : M ref :=
  match pairs with
  | [] => ret start
  | (wi, xi) :: pairs' =>
      let* p := Value.__mul__ wi xi in
      let* acc := Value.__add__ start (Ref p) in
      sum_products acc pairs'
  end.

(** [zip(self.w, x)] needs an iterable [x]: a [Value] is not one. *)
Definition __call__ (self : Neuron) (x : pyval) : M ref :=
  match x with
  | One _ => raise TypeError
  | Seq xs =>
      let* act := sum_products (b self) (zip (w self) xs) in
      Value.tanh act
  end.

Definition parameters (self : Neuron) : list ref := w self ++ [b self].

End Neuron.

Module Layer.

Definition __init__ (nin nout : nat) : M Layer :=
  let* ns := repeat_M nout (Neuron.__init__ nin) in
  ret (mkLayer ns).

Definition __call__ (self : Layer) (x : pyval) : M pyval :=
  let* outs := map_M (fun n => Neuron.__call__ n x) (neurons self) in
  ret (match outs with
       | [o] => One o
       | _ => Seq (Ref <$> outs)
       end).

Definition parameters (self : Layer) : list ref :=
  neuron ← neurons self; Neuron.parameters neuron.

End Layer.

Module MLP.

Definition __init__ (nin : nat) (nouts : list nat) : M MLP :=
  let sz := nin :: nouts in
  let* ls := map_M (fun i => Layer.__init__ (sz !!! i) (sz !!! S i))
                   (seq 0 (length nouts)) in
  ret (mkMLP ls).

Fixpoint feed (ls : list Layer) (x : pyval) : M pyval :=
  match ls with
  | [] => ret x
  | layer :: ls' => let* x' := Layer.__call__ layer x in feed ls' x'
  end.

Definition __call__ (self : MLP) (x : pyval) : M pyval := feed (layers self) x.

Definition parameters (self : MLP) : list ref :=
  layer ← layers self; Layer.parameters layer.

End MLP.

(** ** Graphs the operators build *)

(** The operands a closure captured, in the order of the parameters. *)
Definition operands (c : closure) : list ref :=
  match c with
  | BwNone => []
  | BwAdd self other _ => [self; other]
  | BwMul self other _ => [self; other]
  | BwPow self _ _ => [self]
  | BwTanh self _ _ => [self]
  | BwExp self _ => [self]
  end.

(** The node a closure was made for. *)
Definition closure_out (c : closure) : option ref :=
  match c with
  | BwNone => None
  | BwAdd _ _ out => Some out
  | BwMul _ _ out => Some out
  | BwPow _ _ out => Some out
  | BwTanh _ _ out => Some out
  | BwExp _ out => Some out
  end.

(** The construction invariant: a node's closure belongs to it, its operands
    were allocated before it, and [_prev] is the set of its operands. *)
Record wf_node (i : ref) (n : Value) : Prop := {
  wf_out : forall o, closure_out (_backward n) = Some o -> o = i;
  wf_older : forall o, o ∈ operands (_backward n) -> (o < i)%nat;
  wf_prev : _prev n = list_to_set (operands (_backward n))
}.

Definition wf_heap (h : list Value) : Prop :=
  forall i n, h !! i = Some n -> wf_node i n.

(** [n] is reachable backward from [v] along [_prev]. *)
Inductive reachable (h : list Value) : ref -> ref -> Prop :=
  | reach_refl v : reachable h v v
  | reach_step v child n :
      child ∈ _prev (node h v) -> reachable h child n -> reachable h v n.

(** The forward formula of tanh, as the method writes it. *)
Definition tanh_formula (x : R) : R := (exp (2 * x) - 1) / (exp (2 * x) + 1).

(** The value of node [v] is the forward formula of its operation applied to
    the current values of its operands (true when the node is made, and as
    long as no [data] below it is reassigned). *)
Definition consistent_at (h : list Value) (v : ref) : Prop :=
  match _backward (node h v) with
  | BwNone => True
  | BwAdd self other _ => data (node h v) = data (node h self) + data (node h other)
  | BwMul self other _ => data (node h v) = data (node h self) * data (node h other)
  | BwPow self k _ => py_pow (data (node h self)) k = Ok (data (node h v))
  | BwTanh self t _ => t = tanh_formula (data (node h self)) /\ data (node h v) = t
  | BwExp self _ => data (node h v) = exp (data (node h self))
  end.

(** ** The chain rule over the graph *)

(** [k * x^(k-1)], where it is defined. *)
Definition pow_partial (x k : R) : option R :=
  match py_pow x (k - 1) with
  | Ok p => Some (k * p)
  | _ => None
  end.

(** The partial derivative of a node's operation in each operand slot, in
    terms of the operands' values. *)
Definition local_partials (h : list Value) (v : ref) : list (ref * R) :=
  match _backward (node h v) with
  | BwNone => []
  | BwAdd self other _ => [(self, 1); (other, 1)]
  | BwMul self other _ => [(self, data (node h other)); (other, data (node h self))]
  | BwPow self k _ => [(self, default 0 (pow_partial (data (node h self)) k))]
  | BwTanh self _ _ => [(self, 1 - Rsqr (Rtrigo_def.tanh (data (node h self))))]
  | BwExp self _ => [(self, exp (data (node h self)))]
  end.

(** The formula [k * x^(k-1)] is defined at every power node below [root]. *)
Definition pow_defined (h : list Value) (root : ref) : Prop :=
  forall v self k out, reachable h root v ->
    _backward (node h v) = BwPow self k out ->
    is_Some (pow_partial (data (node h self)) k).

Definition Rsum (xs : list R) : R := foldr Rplus 0 xs.
Definition Rprod (xs : list R) : R := foldr Rmult 1 xs.

(** All paths from [v] down to [n], each as the list of the local partial
    derivatives along its edges. Operands are older than the node, so [fuel]
    = [v] reaches every path. *)
Fixpoint paths (fuel : nat) (h : list Value) (v n : ref) : list (list R) :=
  (if decide (v = n) then [[]] else []) ++
  match fuel with
  | O => []
  | S fuel' =>
      '(o, c) ← local_partials h v; (cons c) <$> paths fuel' h o n
  end.

(** d root / d n: the sum over all paths of the product along the path. *)
Definition path_sum (h : list Value) (root n : ref) : R :=
  Rsum (Rprod <$> paths root h root n).

(** ** Auxiliary definitions for the proofs *)

(** A constant leaf, as [Value(x)] makes it. *)
Definition leaf (x : R) : Value := mkValue x 0 BwNone ∅ op_none EmptyString.

(** The heap and the reference after [to_Value]. *)
Definition promoted (h : list Value) (other : operand) : ref * list Value :=
  match other with
  | Ref v => (v, h)
  | Num x => (length h, h ++ [leaf x])
  end.

(** An operand refers to a node of the heap. *)
Definition operand_in (h : list Value) (o : operand) : Prop :=
  match o with
  | Num _ => True
  | Ref v => (v < length h)%nat
  end.

(** A heap the operators built, in which the values of the nodes from [k]
    on are current (older nodes may have seen their operands reassigned). *)
Definition built_from (k : nat) (h : list Value) : Prop :=
  wf_heap h /\ forall v, (k <= v < length h)%nat -> consistent_at h v.

(** A heap the operators built, with every value current. *)
Definition graph_ok (h : list Value) : Prop := built_from 0 h.

(** From [s], a call made node [out] with value [x] and left [s']: the old
    objects are untouched, the new ones sit after them, [out] has gradient 0,
    and the values from node [k] on are still current ([k] = [length (heap s)]
    speaks of the new nodes only). *)
Definition creates (k : nat) (s : state) (out : ref) (x : R) (s' : state) : Prop :=
  built_from k (heap s') /\
  rand s' = rand s /\
  (exists new, heap s' = heap s ++ new) /\
  (length (heap s) <= out < length (heap s'))%nat /\
  data (node (heap s') out) = x /\
  grad (node (heap s') out) = 0.

(** The loop [for child in v._prev: build_topo(child)]. *)
Definition visit_children (iter : gset ref -> list ref) (fuel : nat) (h : list Value)
    (st : option (gset ref * list ref)) (children : list ref) :
    option (gset ref * list ref) :=
  foldl (fun acc child =>
           match acc with
           | Some st' => Value.build_topo iter fuel h child st'
           | None => None
           end) st children.

(** Every operand of a listed node is listed strictly earlier. *)
Definition topo_sorted (h : list Value) (topo : list ref) : Prop :=
  forall i n, topo !! i = Some n ->
    forall child, child ∈ _prev (node h n) ->
      exists j, (j < i)%nat /\ topo !! j = Some child.

(** The invariant of the traversal: a visited node is already listed unless
    it is still being explored, and those nodes are all at or above [bound];
    the listing has no repetition and is sorted. *)
Record topo_inv (h : list Value) (bound : nat) (visited : gset ref) (topo : list ref) : Prop := {
  inv_pending : forall x, x ∈ visited -> x ∈ topo \/ (bound <= x)%nat;
  inv_listed : forall x, x ∈ topo -> x ∈ visited;
  inv_nodup : NoDup topo;
  inv_sorted : topo_sorted h topo
}.

(** ** The accumulation of gradients *)

Definition delta (a b : ref) : R := if decide (a = b) then 1 else 0.

(** The total weight of the slots that point to [m]. *)
Definition weight_of (ps : list (ref * R)) (m : ref) : R :=
  Rsum ((fun p => snd p * delta (fst p) m) <$> ps).

(** The partial derivative of node [v] with respect to its operand [m], all
    slots taken together ([a * a] has two slots for [a]). *)
Definition edge_weight (h : list Value) (v m : ref) : R :=
  weight_of (local_partials h v) m.

(** What a closure multiplies [out.grad] with, for each operand in turn, as
    the closure computes it; [None] when its power raises. *)
Definition closure_partials (h : list Value) (c : closure) : option (list (ref * R)) :=
  match c with
  | BwNone => Some []
  | BwAdd self other _ => Some [(self, 1); (other, 1)]
  | BwMul self other _ => Some [(self, data (node h other)); (other, data (node h self))]
  | BwPow self k _ =>
      match pow_partial (data (node h self)) k with
      | Some p => Some [(self, p)]
      | None => None
      end
  | BwTanh self t _ => Some [(self, 1 - t * t)]
  | BwExp self out => Some [(self, data (node h out))]
  end.

Definition rule_partials (h : list Value) (v : ref) : option (list (ref * R)) :=
  closure_partials h (_backward (node h v)).

Definition rule_weight (h : list Value) (v m : ref) : R :=
  weight_of (default [] (rule_partials h v)) m.

(** Two heaps hold the same graph: they differ in gradients only. *)
Definition skeleton (h : list Value) : list Value := upd_grad (fun _ => 0) <$> h.
Definition same_graph (h h' : list Value) : Prop := skeleton h = skeleton h'.

(** [v.grad += x] on the heap. *)
Definition bump (v : ref) (x : R) (h : list Value) : list Value :=
  alter_node (upd_grad (fun g => g + x)) v h.

(** The invariant of the replay loop of [backward]: [h0] is the heap when the
    loop starts, [ran] the nodes whose closures have run, [h] the heap now.
    Every gradient is its starting value plus, for each closure that has
    run, the gradient of that node times the weight of its edge. *)
Record replay_inv (h0 : list Value) (ran : list ref) (h : list Value) : Prop := {
  ri_same : same_graph h0 h;
  ri_acc : forall m,
    grad (node h m) =
    grad (node h0 m) + Rsum ((fun c => grad (node h c) * rule_weight h0 c m) <$> ran)
}.

(** The heap after [self.grad = 1.0]. *)
Definition seeded (root : ref) (h : list Value) : list Value :=
  alter_node (upd_grad (fun _ => 1)) root h.

(** ** Auxiliary definitions for the network *)





(** ** The function a graph computes *)

(** [x ** k] as a total function of the base (0 where Python gives no real
    number). *)
Definition pow_value (x k : R) : R :=
  match py_pow x k with
  | Ok d => d
  | _ => 0
  end.

(** The value node [v] takes when the value of node [n] is replaced by [x]
    and every node that depends on [n] is computed again by the forward
    formulas. Operands are older than the node, so [fuel] = [v] suffices. *)
Fixpoint revalue (fuel : nat) (h : list Value) (n : ref) (x : R) (v : ref) : R :=
  if decide (v = n) then x
  else
    match fuel with
    | O => data (node h v)
    | S fuel' =>
        match _backward (node h v) with
        | BwNone => data (node h v)
        | BwAdd self other _ => revalue fuel' h n x self + revalue fuel' h n x other
        | BwMul self other _ => revalue fuel' h n x self * revalue fuel' h n x other
        | BwPow self k _ => pow_value (revalue fuel' h n x self) k
        | BwTanh self _ _ => tanh_formula (revalue fuel' h n x self)
        | BwExp self _ => exp (revalue fuel' h n x self)
        end
    end.

(** The root's value as a function of the value of node [n]. *)
Definition root_value (h : list Value) (root n : ref) (x : R) : R :=
  revalue root h n x root.

(** Where the power with exponent [k] is differentiable in its base [y]:
    a positive base; a non-zero base under an integer; a zero base under a
    positive integer. *)
Definition smooth_at (y k : R) : Prop :=
  0 < y \/
  (y <> 0 /\ exists z : Z, k = IZR z) \/
  (y = 0 /\ exists m : nat, (1 <= m)%nat /\ k = INR m).

Definition pow_smooth (h : list Value) (root : ref) : Prop :=
  forall v self k out, reachable h root v ->
    _backward (node h v) = BwPow self k out ->
    smooth_at (data (node h self)) k.

(** ** Graphs for the examples *)


(** A heap with the single leaf [Value(x)], for examples. *)
Definition one_leaf (x : R) : state := mkState [leaf x] (fun _ => 0).

(** The graph of [c = a * a; d = c + a] over the leaf [a = Value(3)]:
    [a] is node 0, [c] node 1, [d] node 2. *)
Definition demo_state : state :=
  snd ((let* c := Value.__mul__ 0 (Ref 0%nat) in Value.__add__ c (Ref 0%nat)) (one_leaf 3)).

(** The graph of [p = a ** 0] over the leaf [a = Value(0)]: [a] is node 0,
    [p] node 1, with value [0 ** 0 = 1]. *)
Definition zero_pow_state : state :=
  mkState [leaf 0; mkValue 1 0 (BwPow 0 0 1) (list_to_set [0%nat]) (op_pow 0) EmptyString]
          (fun _ => 0).


(** * Proofs *)

(** ** Heap access *)

Lemma node_lookup (h : list Value) (v : ref) (n : Value) :
  h !! v = Some n -> node h v = n.
Proof. intros H. unfold node. by rewrite list_lookup_total_alt, H. Qed.

Lemma node_app_l (h l : list Value) (v : ref) :
  (v < length h)%nat -> node (h ++ l) v = node h v.
Proof. intros H. unfold node. by rewrite lookup_total_app_l. Qed.

Lemma node_app_new (h : list Value) (n : Value) :
  node (h ++ [n]) (length h) = n.
Proof. apply node_lookup. by rewrite list_lookup_middle. Qed.

Lemma node_alter_eq (f : Value -> Value) (v : ref) (h : list Value) :
  (v < length h)%nat -> node (alter_node f v h) v = f (node h v).
Proof. intros H. apply node_lookup. unfold alter_node. by rewrite list_lookup_insert_eq. Qed.

Lemma node_alter_ne (f : Value -> Value) (v v' : ref) (h : list Value) :
  v <> v' -> node (alter_node f v h) v' = node h v'.
Proof.
  intros H. unfold node, alter_node.
  by rewrite !list_lookup_total_alt, list_lookup_insert_ne.
Qed.

Lemma length_alter_node (f : Value -> Value) (v : ref) (h : list Value) :
  length (alter_node f v h) = length h.
Proof. unfold alter_node. by rewrite length_insert. Qed.

Lemma alter_node_new (f : Value -> Value) (h : list Value) (n : Value) :
  alter_node f (length h) (h ++ [n]) = h ++ [f n].
Proof.
  unfold alter_node. rewrite node_app_new.
  rewrite insert_app_r_alt by lia. by rewrite Nat.sub_diag.
Qed.

(** Allocating a node and storing its closure, as every operator ends. *)
Lemma alloc_with_closure (d : R) (ch : list ref) (op : optag) (c : ref -> closure) (s : state) :
  (let* out := Value.__init__ d ch op in set_backward out (c out) ;; ret out) s =
  (Ok (length (heap s)),
   mkState (heap s ++ [mkValue d 0 (c (length (heap s))) (list_to_set ch) op EmptyString]) (rand s)).
Proof.
  unfold bind, Value.__init__, set_backward, ret, with_heap. cbn.
  by rewrite alter_node_new.
Qed.

(** ** Python's power *)

Lemma py_pow_zero_neg (e : R) : e < 0 -> py_pow 0 e = Raise ZeroDivisionError.
Proof.
  intros He. unfold py_pow.
  destruct (Req_dec_T 0 0) as [_|Hn]; [|by destruct Hn].
  destruct (Rlt_dec e 0); [done | contradiction].
Qed.

Lemma Int_part_IZR (k : Z) : Int_part (IZR k) = k.
Proof. symmetry. apply Int_part_spec. lra. Qed.

Lemma py_pow_neg_int (x : R) (k : Z) : x < 0 -> py_pow x (IZR k) = Ok (powerRZ x k).
Proof.
  intros Hx. unfold py_pow.
  destruct (Req_dec_T x 0); [lra|].
  destruct (Rlt_dec 0 x); [lra|].
  rewrite Int_part_IZR.
  destruct (Req_dec_T (IZR k) (IZR k)); [done | congruence].
Qed.

Lemma py_pow_pos (x e : R) : 0 < x -> py_pow x e = Ok (Rpower x e).
Proof.
  intros Hx. unfold py_pow.
  destruct (Req_dec_T x 0); [lra|].
  destruct (Rlt_dec 0 x); [done | lra].
Qed.

Lemma py_pow_int (x : R) (k : Z) :
  x <> 0 -> py_pow x (IZR k) = Ok (powerRZ x k).
Proof.
  intros Hx. destruct (Rlt_dec x 0) as [Hneg|Hpos].
  - by apply py_pow_neg_int.
  - rewrite py_pow_pos by lra. f_equal. symmetry. apply powerRZ_Rpower. lra.
Qed.


(** [x ** 2] is the square, for every [x]. *)
Lemma py_pow_square (x : R) : py_pow x 2 = Ok (x * x).
Proof.
  destruct (Req_dec_T x 0) as [->|Hx].
  - unfold py_pow. destruct (Req_dec_T 0 0); [|done].
    destruct (Rlt_dec 2 0); [lra|]. destruct (Req_dec_T 2 0); [lra|].
    f_equal. lra.
  - change 2 with (IZR 2). rewrite py_pow_int by done. f_equal. simpl. lra.
Qed.

(** ** What each operator returns and allocates *)

Lemma to_Value_run (other : operand) (s : state) :
  Value.to_Value other s =
  (Ok (promoted (heap s) other).1, mkState (promoted (heap s) other).2 (rand s)).
Proof. destruct other, s; reflexivity. Qed.

Lemma add_run (self : ref) (other : operand) (s : state) :
  Value.__add__ self other s =
  let '(o, h) := promoted (heap s) other in
  (Ok (length h),
   mkState (h ++ [mkValue (data (node h self) + data (node h o)) 0
                    (BwAdd self o (length h)) (list_to_set [self; o]) op_add EmptyString])
           (rand s)).
Proof.
  unfold Value.__add__, bind at 1. rewrite to_Value_run.
  destruct (promoted (heap s) other) as [o h]. cbn [fst snd].
  unfold bind at 1, get_data at 1. unfold bind at 1, get_data at 1.
  by rewrite (alloc_with_closure _ _ _ (BwAdd self o)).
Qed.

Lemma mul_run (self : ref) (other : operand) (s : state) :
  Value.__mul__ self other s =
  let '(o, h) := promoted (heap s) other in
  (Ok (length h),
   mkState (h ++ [mkValue (data (node h self) * data (node h o)) 0
                    (BwMul self o (length h)) (list_to_set [self; o]) op_mul EmptyString])
           (rand s)).
Proof.
  unfold Value.__mul__, bind at 1. rewrite to_Value_run.
  destruct (promoted (heap s) other) as [o h]. cbn [fst snd].
  unfold bind at 1, get_data at 1. unfold bind at 1, get_data at 1.
  by rewrite (alloc_with_closure _ _ _ (BwMul self o)).
Qed.

Lemma pow_run (self : ref) (k d : R) (s : state) :
  py_pow (data (node (heap s) self)) k = Ok d ->
  Value.__pow__ self (Num k) s =
  (Ok (length (heap s)),
   mkState (heap s ++ [mkValue d 0 (BwPow self k (length (heap s)))
                         (list_to_set [self]) (op_pow k) EmptyString])
           (rand s)).
Proof.
  intros Hd. unfold Value.__pow__, bind at 1, get_data at 1.
  unfold bind at 1, lift at 1. rewrite Hd.
  by rewrite (alloc_with_closure _ _ _ (BwPow self k)).
Qed.



Lemma exp_run (self : ref) (s : state) :
  Value.exp self s =
  (Ok (length (heap s)),
   mkState (heap s ++ [mkValue (exp (data (node (heap s) self))) 0
                         (BwExp self (length (heap s)))
                         (list_to_set [self]) op_exp EmptyString])
           (rand s)).
Proof.
  unfold Value.exp, bind at 1, get_data at 1.
  by rewrite (alloc_with_closure _ _ _ (BwExp self)).
Qed.

(** ** The construction invariant *)

Lemma wf_heap_nil : wf_heap [].
Proof. intros i n H. by rewrite lookup_nil in H. Qed.

Lemma wf_heap_node (h : list Value) (v : ref) :
  wf_heap h -> (v < length h)%nat -> wf_node v (node h v).
Proof.
  intros Hwf Hv. destruct (lookup_lt_is_Some_2 h v Hv) as [n Hn].
  rewrite (node_lookup _ _ _ Hn). by apply Hwf.
Qed.

Lemma wf_heap_snoc (h : list Value) (n : Value) :
  wf_heap h -> wf_node (length h) n -> wf_heap (h ++ [n]).
Proof.
  intros Hwf Hn i m Hi.
  destruct (decide (i < length h)%nat) as [Hlt|Hge].
  - rewrite lookup_app_l in Hi by done. by apply Hwf.
  - rewrite lookup_app_r in Hi by lia.
    destruct (i - length h)%nat as [|j] eqn:Hj; [|by rewrite lookup_cons, lookup_nil in Hi].
    injection Hi as <-. by replace i with (length h) by lia.
Qed.

Lemma wf_node_leaf (i : ref) (x : R) : wf_node i (leaf x).
Proof. split; cbn; [done | | done]. intros o Ho. by apply elem_of_nil in Ho. Qed.

Lemma wf_operand_lt (h : list Value) (v o : ref) :
  wf_heap h -> (v < length h)%nat -> o ∈ operands (_backward (node h v)) -> (o < v)%nat.
Proof. intros Hwf Hv Ho. by apply (wf_older _ _ (wf_heap_node h v Hwf Hv)). Qed.

Lemma wf_prev_operands (h : list Value) (v o : ref) :
  wf_heap h -> (v < length h)%nat ->
  o ∈ _prev (node h v) <-> o ∈ operands (_backward (node h v)).
Proof.
  intros Hwf Hv. rewrite (wf_prev _ _ (wf_heap_node h v Hwf Hv)).
  by rewrite elem_of_list_to_set.
Qed.

(** Nodes outside the heap read as the default object: no operands. *)
Lemma node_outside (h : list Value) (v : ref) :
  (length h <= v)%nat -> node h v = inhabitant.
Proof.
  intros Hv. unfold node. rewrite list_lookup_total_alt.
  by rewrite lookup_ge_None_2.
Qed.

Lemma consistent_at_snoc (h : list Value) (n : Value) (v : ref) :
  wf_heap h -> (v < length h)%nat ->
  consistent_at h v -> consistent_at (h ++ [n]) v.
Proof.
  intros Hwf Hv. unfold consistent_at.
  rewrite (node_app_l h [n] v Hv).
  pose proof (wf_operand_lt h v) as Hop.
  destruct (_backward (node h v)) as [|a o' out|a o' out|a k out|a t out|a out];
    cbn in Hop; try done;
    repeat match goal with
    | |- context [node (h ++ [n]) ?x] =>
        rewrite (node_app_l h [n] x)
          by (assert (x < v)%nat by (apply Hop; [done|done|set_solver]); lia)
    end; done.
Qed.

Lemma graph_ok_nil : graph_ok [].
Proof. split; [apply wf_heap_nil | cbn; lia]. Qed.


Lemma built_from_snoc (k : nat) (h : list Value) (n : Value) :
  built_from k h -> wf_node (length h) n -> consistent_at (h ++ [n]) (length h) ->
  built_from k (h ++ [n]).
Proof.
  intros [Hwf Hc] Hn Hcn. split; [by apply wf_heap_snoc|].
  intros v Hv. rewrite length_app in Hv. cbn in Hv.
  destruct (decide (v = length h)) as [->|Hne]; [done|].
  apply consistent_at_snoc; [done | lia | apply Hc; lia].
Qed.

Lemma built_from_leaf (k : nat) (h : list Value) (x : R) :
  built_from k h -> built_from k (h ++ [leaf x]).
Proof.
  intros H. apply built_from_snoc; [done | apply wf_node_leaf |].
  unfold consistent_at. by rewrite node_app_new.
Qed.

Lemma promoted_ok (k : nat) (h : list Value) (other : operand) :
  built_from k h -> operand_in h other ->
  built_from k (promoted h other).2 /\
  ((promoted h other).1 < length (promoted h other).2)%nat /\
  (length h <= length (promoted h other).2)%nat /\
  (forall v, (v < length h)%nat -> node (promoted h other).2 v = node h v) /\
  data (node (promoted h other).2 (promoted h other).1) = operand_value h other.
Proof.
  intros Hok Hin. destruct other as [x|v]; cbn [promoted fst snd operand_value operand_in] in *.
  - split; [by apply built_from_leaf|]. rewrite length_app. cbn [length].
    split; [lia|]. split; [lia|]. split; [intros; by apply node_app_l|].
    by rewrite node_app_new.
  - done.
Qed.

(** ** Every operator extends the graph by a well-formed node *)



Lemma add_ok (k : nat) (self : ref) (other : operand) (s : state) :
  built_from k (heap s) -> (self < length (heap s))%nat -> operand_in (heap s) other ->
  exists out s', Value.__add__ self other s = (Ok out, s') /\
    creates k s out (data (node (heap s) self) + operand_value (heap s) other) s'.
Proof.
  intros Hok Hself Hin. rewrite add_run.
  destruct (promoted_ok _ _ _ Hok Hin) as (Hok1 & Ho & Hlen & Hold & Hval).
  assert (exists new, (promoted (heap s) other).2 = heap s ++ new) as [new Hnew].
  { destruct other; cbn; [by eexists | exists []; by rewrite app_nil_r]. }
  destruct (promoted (heap s) other) as [o h]. cbn [fst snd] in *.
  eexists _, _. split; [reflexivity|].
  split; [|split; [done|split; [|split; [|split]]]]; cbn [heap rand].
  - apply built_from_snoc; [done| |].
    + split; cbn; [by intros ? [= <-] | | done].
      intros x Hx. rewrite !elem_of_cons, elem_of_nil in Hx. lia.
    + unfold consistent_at. rewrite node_app_new. cbn.
      rewrite !node_app_l by lia. done.
  - exists (new ++ [mkValue (data (node h self) + data (node h o)) 0
                      (BwAdd self o (length h)) (list_to_set [self; o]) op_add EmptyString]).
    by rewrite Hnew, app_assoc.
  - rewrite length_app. cbn. lia.
  - rewrite node_app_new. cbn. by rewrite Hold, Hval.
  - by rewrite node_app_new.
Qed.

Lemma mul_ok (k : nat) (self : ref) (other : operand) (s : state) :
  built_from k (heap s) -> (self < length (heap s))%nat -> operand_in (heap s) other ->
  exists out s', Value.__mul__ self other s = (Ok out, s') /\
    creates k s out (data (node (heap s) self) * operand_value (heap s) other) s'.
Proof.
  intros Hok Hself Hin. rewrite mul_run.
  destruct (promoted_ok _ _ _ Hok Hin) as (Hok1 & Ho & Hlen & Hold & Hval).
  assert (exists new, (promoted (heap s) other).2 = heap s ++ new) as [new Hnew].
  { destruct other; cbn; [by eexists | exists []; by rewrite app_nil_r]. }
  destruct (promoted (heap s) other) as [o h]. cbn [fst snd] in *.
  eexists _, _. split; [reflexivity|].
  split; [|split; [done|split; [|split; [|split]]]]; cbn [heap rand].
  - apply built_from_snoc; [done| |].
    + split; cbn; [by intros ? [= <-] | | done].
      intros x Hx. rewrite !elem_of_cons, elem_of_nil in Hx. lia.
    + unfold consistent_at. rewrite node_app_new. cbn.
      rewrite !node_app_l by lia. done.
  - exists (new ++ [mkValue (data (node h self) * data (node h o)) 0
                      (BwMul self o (length h)) (list_to_set [self; o]) op_mul EmptyString]).
    by rewrite Hnew, app_assoc.
  - rewrite length_app. cbn. lia.
  - rewrite node_app_new. cbn. by rewrite Hold, Hval.
  - by rewrite node_app_new.
Qed.

Lemma unary_node_ok (k : nat) (h : list Value) (self : ref) (d : R) (c : closure) (op : optag)
    (r : nat -> R) (s : state) :
  heap s = h -> rand s = r ->
  built_from k h -> (self < length h)%nat ->
  operands c = [self] -> closure_out c = Some (length h) ->
  (forall h', node h' (length h) = mkValue d 0 c (list_to_set [self]) op EmptyString ->
              node h' self = node h self -> consistent_at h' (length h)) ->
  creates k s (length h) d (mkState (h ++ [mkValue d 0 c (list_to_set [self]) op EmptyString]) r).
Proof.
  intros <- <- Hok Hself Hops Hout Hcons.
  split; [|split; [done|split; [by eexists|split; [|split]]]]; cbn [heap rand].
  - apply built_from_snoc; [done| |].
    + split; cbn; [intros o Ho; congruence | | by rewrite Hops].
      rewrite Hops. intros x Hx. rewrite !elem_of_cons, elem_of_nil in Hx. lia.
    + apply Hcons; [by rewrite node_app_new | by rewrite node_app_l].
  - rewrite length_app. cbn. lia.
  - by rewrite node_app_new.
  - by rewrite node_app_new.
Qed.



Lemma exp_ok (k : nat) (self : ref) (s : state) :
  built_from k (heap s) -> (self < length (heap s))%nat ->
  exists out s', Value.exp self s = (Ok out, s') /\
    creates k s out (exp (data (node (heap s) self))) s'.
Proof.
  intros Hok Hself. rewrite exp_run.
  eexists _, _. split; [reflexivity|].
  eapply unary_node_ok; try done.
  intros h' Hn Hs. unfold consistent_at. rewrite Hn. cbn. by rewrite Hs.
Qed.




(** ** Division by zero *)

(** C9: dividing a node by a divisor whose value is 0, a plain number or a
    node, returns no node: ZeroDivisionError is raised while [other**-1] is
    computed, before anything is allocated. *)
Theorem truediv_by_zero (self : ref) (other : operand) (s : state) :
  operand_value (heap s) other = 0 ->
  Value.__truediv__ self other s = (Raise ZeroDivisionError, s) /\
  binary Div (Ref self) other s = (Raise ZeroDivisionError, s).
Proof.
  intros Hz.
  assert (Value.__truediv__ self other s = (Raise ZeroDivisionError, s)) as Hdiv.
  { unfold Value.__truediv__, bind at 1.
    destruct other as [x|v]; cbn [Value.pow_operand operand_value] in *.
    - unfold bind at 1, lift at 1. rewrite Hz, py_pow_zero_neg by lra. done.
    - unfold bind at 1, Value.__pow__, bind at 1, get_data at 1.
      unfold bind at 1, lift at 1. rewrite Hz, py_pow_zero_neg by lra. done. }
  split; [done|]. unfold binary, primary, bind. by rewrite Hdiv.
Qed.

Lemma truediv_by_zero_witness :
  operand_value (heap (one_leaf 3)) (Num 0) = 0 /\
  Value.__truediv__ 0 (Num 0) (one_leaf 3) = (Raise ZeroDivisionError, one_leaf 3) /\
  binary Div (Ref 0%nat) (Num 0) (one_leaf 3) = (Raise ZeroDivisionError, one_leaf 3).
Proof. split; [reflexivity | apply truediv_by_zero; reflexivity]. Defined.

Lemma graph_ok_one_leaf (x : R) : graph_ok (heap (one_leaf x)).
Proof. apply (built_from_leaf 0 [] x), graph_ok_nil. Qed.


(** ** Power *)






(** ** Numbers on either side of an operator *)




(** ** The traversal of [backward] *)

Lemma prev_older (h : list Value) (v child : ref) :
  wf_heap h -> child ∈ _prev (node h v) -> (child < v)%nat.
Proof.
  intros Hwf Hc. destruct (decide (v < length h)%nat) as [Hv|Hv].
  - apply (wf_operand_lt h v child Hwf Hv). by apply wf_prev_operands.
  - rewrite node_outside in Hc by lia. cbn in Hc. set_solver.
Qed.

Lemma reachable_le (h : list Value) (v n : ref) :
  wf_heap h -> reachable h v n -> (n <= v)%nat.
Proof.
  intros Hwf. induction 1 as [|v c n Hc _ IH]; [lia|].
  pose proof (prev_older h v c Hwf Hc). lia.
Qed.

Lemma reachable_trans (h : list Value) (a b c : ref) :
  reachable h a b -> reachable h b c -> reachable h a c.
Proof. induction 1; [done|]. intros. eapply reach_step; eauto. Qed.

Lemma topo_sorted_snoc (h : list Value) (topo : list ref) (v : ref) :
  topo_sorted h topo ->
  (forall child, child ∈ _prev (node h v) -> child ∈ topo) ->
  topo_sorted h (topo ++ [v]).
Proof.
  intros Hs Hv i n Hi child Hc.
  destruct (decide (i < length topo)%nat) as [Hlt|Hge].
  - rewrite lookup_app_l in Hi by done.
    destruct (Hs i n Hi child Hc) as (j & Hj & Hjc).
    exists j. split; [done|]. rewrite lookup_app_l by lia. done.
  - rewrite lookup_app_r in Hi by lia.
    destruct (i - length topo)%nat as [|k] eqn:Hk;
      [|by rewrite lookup_cons, lookup_nil in Hi].
    injection Hi as <-.
    destruct (proj1 (list_elem_of_lookup _ _) (Hv child Hc)) as [j Hj].
    exists j. pose proof (lookup_lt_Some _ _ _ Hj).
    split; [lia|]. by rewrite lookup_app_l.
Qed.

Lemma topo_inv_empty (h : list Value) (bound : nat) : topo_inv h bound ∅ [].
Proof.
  split.
  - intros x Hx. set_solver.
  - intros x Hx. by apply elem_of_nil in Hx.
  - apply NoDup_nil_2.
  - intros i n Hi. by rewrite lookup_nil in Hi.
Qed.

(** The listing of a sorted, repetition-free traversal from [self] holds
    exactly the nodes reachable from [self]. *)
Lemma sorted_closed (h : list Value) (topo : list ref) (v n : ref) :
  topo_sorted h topo -> v ∈ topo -> reachable h v n -> n ∈ topo.
Proof.
  intros Hs Hv Hr. induction Hr as [|v c n Hc _ IH]; [done|].
  apply IH. destruct (proj1 (list_elem_of_lookup _ _) Hv) as [i Hi].
  destruct (Hs i v Hi c Hc) as (j & _ & Hj).
  apply list_elem_of_lookup. by exists j.
Qed.

Section Traversal.

Variable iter : gset ref -> list ref.
Hypothesis iter_enumerates : forall X, iter X ≡ₚ elements X.

Lemma elem_of_iter (X : gset ref) (x : ref) : x ∈ iter X <-> x ∈ X.
Proof. by rewrite (iter_enumerates X), elem_of_elements. Qed.

Lemma build_topo_unfold (fuel : nat) (h : list Value) (v : ref)
    (visited : gset ref) (topo : list ref) :
  Value.build_topo iter (S fuel) h v (visited, topo) =
  if decide (v ∈ visited) then Some (visited, topo)
  else match visit_children iter fuel h (Some ({[v]} ∪ visited, topo))
               (iter (_prev (node h v))) with
       | Some (visited', topo') => Some (visited', topo' ++ [v])
       | None => None
       end.
Proof. reflexivity. Qed.

(** One call of [build_topo], and the loop over the children, by induction
    on the fuel. *)
Lemma build_topo_inv (h : list Value) (fuel : nat) :
  wf_heap h ->
  forall v bound visited topo,
    (v < fuel)%nat -> (v < bound)%nat -> topo_inv h bound visited topo ->
    exists new,
      Value.build_topo iter fuel h v (visited, topo) =
        Some (visited ∪ list_to_set new, topo ++ new) /\
      topo_inv h bound (visited ∪ list_to_set new) (topo ++ new) /\
      v ∈ topo ++ new /\
      (forall x, x ∈ new -> reachable h v x) /\
      (v ∉ visited -> exists new', new = new' ++ [v]).
Proof.
  intros Hwf. induction fuel as [|fuel IH]; intros v bound visited topo Hfuel Hb Hinv; [lia|].
  rewrite build_topo_unfold. destruct (decide (v ∈ visited)) as [Hin|Hnin].
  { exists []. cbn [list_to_set]. rewrite app_nil_r, union_empty_r_L.
    split; [done|]. split; [done|].
    split; [|split; [intros x Hx; by apply elem_of_nil in Hx | done]].
    destruct (inv_pending _ _ _ _ Hinv v Hin); [done | lia]. }
  assert (forall children visited1 topo1,
    (forall c, c ∈ children -> c ∈ _prev (node h v)) ->
    topo_inv h v visited1 topo1 ->
    exists new,
      visit_children iter fuel h (Some (visited1, topo1)) children =
        Some (visited1 ∪ list_to_set new, topo1 ++ new) /\
      topo_inv h v (visited1 ∪ list_to_set new) (topo1 ++ new) /\
      (forall c, c ∈ children -> c ∈ topo1 ++ new) /\
      (forall x, x ∈ new -> exists c, c ∈ children /\ reachable h c x)) as Hloop.
  { induction children as [|c cs IHcs]; intros visited1 topo1 Hcs Hinv1.
    - exists []. cbn [list_to_set]. rewrite app_nil_r, union_empty_r_L.
      split; [done|]. split; [done|].
      split; intros x Hx; by apply elem_of_nil in Hx.
    - assert (c < v)%nat as Hcv.
      { apply (prev_older h v c Hwf), Hcs. by left. }
      destruct (IH c v visited1 topo1) as (n2 & Hrun & Hinv2 & Hc2 & Hr2 & _);
        [lia | done | done |].
      destruct (IHcs (visited1 ∪ list_to_set n2) (topo1 ++ n2))
        as (n3 & Hrun3 & Hinv3 & Hc3 & Hr3); [|done|].
      { intros c' Hc'. apply Hcs. by right. }
      exists (n2 ++ n3). unfold visit_children in *. cbn [foldl].
      rewrite Hrun, Hrun3, list_to_set_app_L, !app_assoc, (assoc_L (∪)).
      split; [done|]. split; [done|]. split.
      + intros c' Hc'. apply elem_of_cons in Hc' as [->|Hc']; [|by apply Hc3].
        apply elem_of_app. by left.
      + intros x Hx. apply elem_of_app in Hx as [Hx|Hx].
        * exists c. split; [by left | by apply Hr2].
        * destruct (Hr3 x Hx) as (c' & Hc' & Hr'). exists c'. split; [by right | done]. }
  destruct (Hloop (iter (_prev (node h v))) ({[v]} ∪ visited) topo)
    as (new2 & Hrun & Hinv2 & Hch & Hreach).
  { intros c Hc. by apply elem_of_iter. }
  { destruct Hinv as [Hp Hl Hn Hs]. split; [|set_solver|done|done].
    intros x Hx. apply elem_of_union in Hx as [Hx|Hx].
    - apply elem_of_singleton in Hx as ->. right. lia.
    - destruct (Hp x Hx); [by left | right; lia]. }
  rewrite Hrun.
  assert (forall x, x ∈ new2 -> (x < v)%nat /\ reachable h v x) as Hbelow.
  { intros x Hx. destruct (Hreach x Hx) as (c & Hc & Hr).
    apply elem_of_iter in Hc.
    pose proof (prev_older h v c Hwf Hc). pose proof (reachable_le h c x Hwf Hr).
    split; [lia | by eapply reach_step]. }
  assert (v ∉ topo ++ new2) as Hfresh.
  { intros Hv. apply elem_of_app in Hv as [Hv|Hv].
    - apply Hnin. by apply (inv_listed _ _ _ _ Hinv).
    - destruct (Hbelow v Hv). lia. }
  exists (new2 ++ [v]). rewrite app_assoc.
  replace (visited ∪ list_to_set (new2 ++ [v]))
    with ({[v]} ∪ visited ∪ list_to_set new2)
    by (rewrite list_to_set_app_L; cbn [list_to_set]; set_solver).
  split; [done|]. split; [|split].
  - destruct Hinv2 as [Hp2 Hl2 Hn2 Hs2]. split.
    + intros x Hx. destruct (decide (x = v)) as [->|Hne].
      { left. apply elem_of_app. right. by apply list_elem_of_singleton. }
      destruct (decide (x ∈ new2)) as [Hxn|Hxn].
      { left. rewrite <- app_assoc. apply elem_of_app. right. apply elem_of_app. by left. }
      assert (x ∈ visited) as Hxv by set_solver.
      destruct (inv_pending _ _ _ _ Hinv x Hxv) as [Hxt|Hxb]; [|by right].
      left. rewrite <- app_assoc. apply elem_of_app. by left.
    + intros x Hx. apply elem_of_app in Hx as [Hx|Hx]; [by apply Hl2|].
      apply list_elem_of_singleton in Hx as ->. set_solver.
    + apply NoDup_app. split; [done|]. split; [|apply NoDup_singleton].
      intros x Hx Hxv. apply list_elem_of_singleton in Hxv as ->. done.
    + apply topo_sorted_snoc; [done|].
      intros child Hc. apply Hch. by apply elem_of_iter.
  - apply elem_of_app. right. by apply list_elem_of_singleton.
  - split; [|by exists new2].
    intros x Hx. apply elem_of_app in Hx as [Hx|Hx]; [by apply Hbelow|].
    apply list_elem_of_singleton in Hx as ->. apply reach_refl.
Qed.

Lemma topo_of_spec (h : list Value) (self : ref) :
  wf_heap h -> (self < length h)%nat ->
  exists topo,
    Value.topo_of iter h self = Some topo /\
    NoDup topo /\
    topo_sorted h topo /\
    (forall n, n ∈ topo <-> reachable h self n) /\
    (exists before, topo = before ++ [self]).
Proof.
  intros Hwf Hself.
  destruct (build_topo_inv h (length h) Hwf self (S self) ∅ [])
    as (new & Hrun & Hinv & Hin & Hreach & Hlast); [done | lia | apply topo_inv_empty |].
  cbn [app] in *. exists new. unfold Value.topo_of. rewrite Hrun.
  split; [done|]. split; [apply Hinv|]. split; [apply Hinv|].
  split; [|apply Hlast, not_elem_of_empty].
  intros n. split; [apply Hreach|].
  intros Hr. eapply sorted_closed; [apply Hinv | done | done].
Qed.

End Traversal.

Lemma demo_heap :
  heap demo_state =
  [leaf 3;
   mkValue (3 * 3) 0 (BwMul 0 0 1) (list_to_set [0; 0]%nat) op_mul EmptyString;
   mkValue (3 * 3 + 3) 0 (BwAdd 1 0 2) (list_to_set [1; 0]%nat) op_add EmptyString].
Proof. reflexivity. Qed.

Lemma demo_graph_ok : graph_ok (heap demo_state).
Proof.
  destruct (mul_ok 0 0 (Ref 0%nat) (one_leaf 3) (graph_ok_one_leaf 3))
    as (c & s1 & Hc & Hok1 & _); [cbn; lia | cbn; lia |].
  destruct (add_ok 0 c (Ref 0%nat) s1 Hok1) as (d & s2 & Hd & Hok2 & _).
  - rewrite mul_run in Hc. injection Hc as <- <-. cbn. lia.
  - rewrite mul_run in Hc. injection Hc as <- <-. cbn. lia.
  - unfold demo_state, bind. by rewrite Hc, Hd.
Qed.

(** ** The order of the backward pass *)

(** C2: the listing [build_topo] computes for [backward] exists (the
    traversal returns), repeats no node, holds every operand of a listed node
    strictly earlier than the node, and lists exactly the nodes reachable
    from the root. *)
Theorem build_topo_topological (iter : gset ref -> list ref) (h : list Value) (self : ref) :
  (forall X, iter X ≡ₚ elements X) ->
  wf_heap h -> (self < length h)%nat ->
  exists topo,
    Value.topo_of iter h self = Some topo /\
    NoDup topo /\
    (forall i n, topo !! i = Some n ->
       forall child, child ∈ _prev (node h n) ->
         exists j, (j < i)%nat /\ topo !! j = Some child) /\
    (forall i n, topo !! i = Some n ->
       forall child, child ∈ operands (_backward (node h n)) ->
         exists j, (j < i)%nat /\ topo !! j = Some child) /\
    (forall n, n ∈ topo <-> reachable h self n).
Proof.
  intros Hiter Hwf Hself.
  destruct (topo_of_spec iter Hiter h self Hwf Hself) as (topo & Hrun & Hnd & Hs & Hr & _).
  exists topo. split; [done|]. split; [done|]. split; [exact Hs|]. split; [|done].
  intros i n Hi child Hc. apply (Hs i n Hi).
  assert (n < length h)%nat as Hn.
  { destruct (decide (n < length h)%nat); [done|].
    rewrite node_outside in Hc by lia. by apply elem_of_nil in Hc. }
  by apply wf_prev_operands.
Qed.

Lemma build_topo_topological_witness :
  (forall X : gset ref, elements X ≡ₚ elements X) /\
  wf_heap (heap demo_state) /\ (2 < length (heap demo_state))%nat /\
  exists topo,
    Value.topo_of elements (heap demo_state) 2 = Some topo /\
    NoDup topo /\
    (forall n, n ∈ topo <-> reachable (heap demo_state) 2 n).
Proof.
  split; [reflexivity|]. split; [apply demo_graph_ok|]. split; [cbn; lia|].
  destruct (build_topo_topological elements (heap demo_state) 2)
    as (topo & Hrun & Hnd & _ & _ & Hr);
    [reflexivity | apply demo_graph_ok | cbn; lia |].
  exists topo. done.
Defined.

(** ** Sums *)

Ltac rsum := unfold Rsum in *; cbn [foldr fmap list_fmap app] in *.

Lemma Rsum_app (xs ys : list R) : Rsum (xs ++ ys) = Rsum xs + Rsum ys.
Proof. induction xs as [|x xs IH]; rsum; [lra | rewrite IH; lra]. Qed.

Lemma Rsum_perm (xs ys : list R) : xs ≡ₚ ys -> Rsum xs = Rsum ys.
Proof. induction 1; rsum; lra. Qed.

Lemma Rsum_map_perm {A} (f : A -> R) (xs ys : list A) :
  xs ≡ₚ ys -> Rsum (f <$> xs) = Rsum (f <$> ys).
Proof. intros H. apply Rsum_perm. by rewrite H. Qed.

Lemma Rsum_map_ext {A} (f g : A -> R) (xs : list A) :
  (forall x, x ∈ xs -> f x = g x) -> Rsum (f <$> xs) = Rsum (g <$> xs).
Proof.
  induction xs as [|x xs IH]; intros H; rsum; [done|].
  rewrite (H x) by (by left). rewrite IH; [done|]. intros y Hy. apply H. by right.
Qed.

Lemma Rsum_map_zero {A} (f : A -> R) (xs : list A) :
  (forall x, x ∈ xs -> f x = 0) -> Rsum (f <$> xs) = 0.
Proof.
  induction xs as [|x xs IH]; intros H; rsum; [done|].
  rewrite (H x) by (by left). rewrite IH; [lra|]. intros y Hy. apply H. by right.
Qed.

Lemma Rsum_map_plus {A} (f g : A -> R) (xs : list A) :
  Rsum ((fun x => f x + g x) <$> xs) = Rsum (f <$> xs) + Rsum (g <$> xs).
Proof. induction xs as [|x xs IH]; rsum; [lra | rewrite IH; lra]. Qed.

Lemma Rsum_map_scal {A} (k : R) (f : A -> R) (xs : list A) :
  Rsum ((fun x => k * f x) <$> xs) = k * Rsum (f <$> xs).
Proof. induction xs as [|x xs IH]; rsum; [lra | rewrite IH; lra]. Qed.

Lemma Rsum_map_scal_r {A} (k : R) (f : A -> R) (xs : list A) :
  Rsum ((fun x => f x * k) <$> xs) = Rsum (f <$> xs) * k.
Proof. induction xs as [|x xs IH]; rsum; [lra | rewrite IH; lra]. Qed.

Lemma Rsum_swap {A B} (F : A -> B -> R) (xs : list A) (ys : list B) :
  Rsum ((fun x => Rsum ((fun y => F x y) <$> ys)) <$> xs) =
  Rsum ((fun y => Rsum ((fun x => F x y) <$> xs)) <$> ys).
Proof.
  induction ys as [|y ys IH].
  - apply Rsum_map_zero. done.
  - cbn [fmap list_fmap]. change (Rsum (?a :: ?l)) with (a + Rsum l).
    rewrite <- IH, <- Rsum_map_plus. done.
Qed.

(** A sum against [delta] picks one term. *)
Lemma Rsum_delta (f : ref -> R) (r N : nat) :
  (r < N)%nat -> Rsum ((fun x => delta r x * f x) <$> seq 0 N) = f r.
Proof.
  intros Hr. replace N with (r + S (N - S r))%nat by lia.
  rewrite seq_app, fmap_app, Rsum_app. cbn [seq fmap list_fmap].
  change (Rsum (?a :: ?l)) with (a + Rsum l).
  rewrite !Rsum_map_zero.
  - cbn [Nat.add]. unfold delta. rewrite decide_True by done. lra.
  - intros x Hx. apply list_elem_of_In, in_seq in Hx.
    unfold delta. rewrite decide_False by lia. lra.
  - intros x Hx. apply list_elem_of_In, in_seq in Hx.
    unfold delta. rewrite decide_False by lia. lra.
Qed.

(** A sum over all indices is the sum over any repetition-free list that
    holds every index with a non-zero term. *)
Lemma Rsum_seq_support (f : ref -> R) (N : nat) (l : list ref) :
  NoDup l -> (forall x, x ∈ l -> (x < N)%nat) ->
  (forall x, (x < N)%nat -> x ∉ l -> f x = 0) ->
  Rsum (f <$> seq 0 N) = Rsum (f <$> l).
Proof.
  intros Hnd Hin Hz.
  assert (l ⊆+ seq 0 N) as Hsub.
  { apply NoDup_submseteq; [done|]. intros x Hx.
    apply list_elem_of_In, in_seq. specialize (Hin x Hx). lia. }
  apply submseteq_Permutation in Hsub as [k Hk].
  rewrite (Rsum_map_perm f _ _ Hk), fmap_app, Rsum_app.
  rewrite (Rsum_map_zero f k); [lra|].
  intros x Hx. apply Hz.
  - assert (x ∈ seq 0 N) as Hs by (rewrite Hk; apply elem_of_app; by right).
    apply list_elem_of_In, in_seq in Hs. lia.
  - intros Hxl. pose proof (NoDup_seq 0 N) as Hns. rewrite Hk in Hns.
    apply NoDup_app in Hns as (_ & Hdis & _). by apply (Hdis x).
Qed.

(** ** Path sums *)

Lemma local_partials_operand (h : list Value) (v o : ref) (c : R) :
  (o, c) ∈ local_partials h v -> o ∈ operands (_backward (node h v)).
Proof.
  unfold local_partials.
  destruct (_backward (node h v)); cbn; intros H;
    rewrite ?elem_of_cons, ?elem_of_nil in *; naive_solver.
Qed.

Lemma local_partials_older (h : list Value) (v o : ref) (c : R) :
  wf_heap h -> (o, c) ∈ local_partials h v ->
  (o < v)%nat /\ o ∈ _prev (node h v).
Proof.
  intros Hwf Ho. apply local_partials_operand in Ho.
  destruct (decide (v < length h)%nat) as [Hv|Hv].
  - split; [by apply (wf_operand_lt h v o Hwf Hv) | by apply wf_prev_operands].
  - rewrite node_outside in Ho by lia. by apply elem_of_nil in Ho.
Qed.

Lemma paths_fuel_step (h : list Value) (n : ref) (fuel v : nat) :
  wf_heap h -> (v <= fuel)%nat -> paths (S fuel) h v n = paths fuel h v n.
Proof.
  intros Hwf. revert v. induction fuel as [|fuel IH]; intros v Hv.
  - cbn [paths]. f_equal.
    destruct (local_partials h v) as [|[o c] ps] eqn:Hps; [done|].
    assert ((o, c) ∈ local_partials h v) as Ho by (rewrite Hps; by left).
    apply (local_partials_older h v o c Hwf) in Ho. lia.
  - change (paths (S (S fuel)) h v n) with
      ((if decide (v = n) then [[]] else []) ++
       ('(o, c) ← local_partials h v; (cons c) <$> paths (S fuel) h o n)).
    change (paths (S fuel) h v n) with
      ((if decide (v = n) then [[]] else []) ++
       ('(o, c) ← local_partials h v; (cons c) <$> paths fuel h o n)).
    f_equal.
    assert (forall p, p ∈ local_partials h v -> (p.1 <= fuel)%nat) as Hold.
    { intros [o c] Ho. apply (local_partials_older h v o c Hwf) in Ho. cbn. lia. }
    induction (local_partials h v) as [|[o c] ps IHps]; [done|].
    cbn [mbind list_bind]. rewrite IH by (apply (Hold (o, c)); by left).
    f_equal. apply IHps. intros p Hp. apply Hold. by right.
Qed.

Lemma paths_fuel (h : list Value) (n : ref) (fuel v : nat) :
  wf_heap h -> (v <= fuel)%nat -> paths fuel h v n = paths v h v n.
Proof.
  intros Hwf Hv. induction fuel as [|fuel IH].
  - by replace v with 0%nat by lia.
  - destruct (decide (v = S fuel)) as [->|Hne]; [done|].
    rewrite paths_fuel_step by (done || lia). apply IH. lia.
Qed.

Lemma Rsum_Rprod_cons (c : R) (ps : list (list R)) :
  Rsum (Rprod <$> ((cons c) <$> ps)) = c * Rsum (Rprod <$> ps).
Proof.
  induction ps as [|p ps IH]; rsum; [ring|].
  rewrite IH. unfold Rprod. cbn [foldr]. ring.
Qed.

(** The chain rule, one step down from [v]. *)
Lemma path_sum_unfold (h : list Value) (v n : ref) :
  wf_heap h ->
  path_sum h v n =
  delta v n + Rsum ((fun p => snd p * path_sum h (fst p) n) <$> local_partials h v).
Proof.
  intros Hwf. unfold path_sum at 1.
  rewrite <- (paths_fuel_step h n v v Hwf) by lia.
  change (paths (S v) h v n) with
    ((if decide (v = n) then [[]] else []) ++
     ('(o, c) ← local_partials h v; (cons c) <$> paths v h o n)).
  rewrite fmap_app, Rsum_app. f_equal.
  { unfold delta. destruct (decide (v = n)); rsum; cbn; lra. }
  assert (forall p, p ∈ local_partials h v -> (p.1 <= v)%nat) as Hold.
  { intros [o c] Ho. apply (local_partials_older h v o c Hwf) in Ho. cbn. lia. }
  induction (local_partials h v) as [|[o c] ps IHps]; [done|].
  cbn [mbind list_bind fmap list_fmap fst snd].
  change (Rsum (?a :: ?l)) with (a + Rsum l).
  rewrite fmap_app, Rsum_app, Rsum_Rprod_cons.
  rewrite (paths_fuel h n v o Hwf) by (apply (Hold (o, c)); by left).
  f_equal. apply IHps. intros p Hp. apply Hold. by right.
Qed.

Lemma path_sum_unreachable (h : list Value) (v n : ref) :
  wf_heap h -> ~ reachable h v n -> path_sum h v n = 0.
Proof.
  intros Hwf. induction (lt_wf v) as [v _ IH]. intros Hnr.
  rewrite path_sum_unfold by done.
  unfold delta. rewrite decide_False by (intros ->; apply Hnr, reach_refl).
  rewrite Rsum_map_zero; [lra|].
  intros [o c] Ho. cbn [fst snd].
  destruct (local_partials_older h v o c Hwf Ho) as [Hlt Hprev].
  rewrite IH; [lra | done |]. intros Hr. apply Hnr. by eapply reach_step.
Qed.

Lemma path_sum_self (h : list Value) (v : ref) :
  wf_heap h -> path_sum h v v = 1.
Proof.
  intros Hwf. rewrite path_sum_unfold by done.
  unfold delta. rewrite decide_True by done.
  rewrite Rsum_map_zero; [lra|].
  intros [o c] Ho. cbn [fst snd].
  destruct (local_partials_older h v o c Hwf Ho) as [Hlt _].
  rewrite path_sum_unreachable; [lra | done |].
  intros Hr. pose proof (reachable_le h o v Hwf Hr). lia.
Qed.

Lemma edge_weight_zero (h : list Value) (v m : ref) :
  wf_heap h -> m ∉ _prev (node h v) -> edge_weight h v m = 0.
Proof.
  intros Hwf Hm. unfold edge_weight, weight_of. apply Rsum_map_zero.
  intros [o c] Ho. cbn. unfold delta.
  destruct (decide (o = m)) as [->|]; [|lra].
  destruct (local_partials_older h v m c Hwf Ho). done.
Qed.

(** The same derivative, one step up from [m]: the sum over the consumers
    [x] of [m]. *)
Lemma path_sum_reverse (h : list Value) (r m : ref) (N : nat) :
  wf_heap h -> (r < N)%nat ->
  path_sum h r m =
  delta r m + Rsum ((fun x => path_sum h r x * edge_weight h x m) <$> seq 0 N).
Proof.
  intros Hwf. induction (lt_wf r) as [r _ IH]. intros Hr.
  rewrite (Rsum_map_ext _
    (fun x => delta r x * edge_weight h x m +
              Rsum ((fun p => snd p * (path_sum h (fst p) x * edge_weight h x m))
                      <$> local_partials h r))).
  2:{ intros x _. rewrite (path_sum_unfold h r x Hwf).
      rewrite Rmult_plus_distr_r, <- Rsum_map_scal_r. f_equal.
      apply Rsum_map_ext. intros. lra. }
  rewrite Rsum_map_plus, (Rsum_delta (fun x => edge_weight h x m)) by done.
  rewrite (Rsum_swap (fun x p => snd p * (path_sum h (fst p) x * edge_weight h x m))).
  rewrite (Rsum_map_ext _ (fun p => snd p * path_sum h (fst p) m - snd p * delta (fst p) m)).
  2:{ intros [o c] Ho. cbn [fst snd].
      destruct (local_partials_older h r o c Hwf Ho) as [Hlt _].
      rewrite Rsum_map_scal, <- (Rplus_minus_l (delta o m)
        (Rsum ((fun x => path_sum h o x * edge_weight h x m) <$> seq 0 N))).
      rewrite <- (IH o Hlt) by lia. lra. }
  rewrite (path_sum_unfold h r m Hwf).
  unfold Rminus. rewrite Rsum_map_plus.
  rewrite (Rsum_map_ext (fun x : ref * R => - (snd x * delta (fst x) m))
             (fun x => -1 * (snd x * delta (fst x) m))) by (intros; lra).
  rewrite Rsum_map_scal. unfold edge_weight at 1, weight_of. lra.
Qed.

(** ** Heaps that differ in gradients only *)

Lemma same_graph_length (h h' : list Value) : same_graph h h' -> length h = length h'.
Proof.
  intros H. unfold same_graph, skeleton in H.
  by rewrite <- (length_fmap (upd_grad (fun _ => 0)) h), H, length_fmap.
Qed.

Lemma same_graph_node (h h' : list Value) (v : ref) :
  same_graph h h' ->
  upd_grad (fun _ => 0) (node h v) = upd_grad (fun _ => 0) (node h' v).
Proof.
  intros H. unfold node. rewrite !list_lookup_total_alt.
  assert (upd_grad (fun _ => 0) <$> h !! v = upd_grad (fun _ => 0) <$> h' !! v) as Hv.
  { rewrite <- !list_lookup_fmap. unfold same_graph, skeleton in H. by rewrite H. }
  destruct (h !! v), (h' !! v); cbn in *; congruence.
Qed.

Lemma same_graph_data (h h' : list Value) (v : ref) :
  same_graph h h' -> data (node h v) = data (node h' v).
Proof. intros H. by injection (same_graph_node h h' v H). Qed.

Lemma same_graph_backward (h h' : list Value) (v : ref) :
  same_graph h h' -> _backward (node h v) = _backward (node h' v).
Proof. intros H. by injection (same_graph_node h h' v H). Qed.

Lemma same_graph_prev (h h' : list Value) (v : ref) :
  same_graph h h' -> _prev (node h v) = _prev (node h' v).
Proof. intros H. by injection (same_graph_node h h' v H). Qed.

Lemma same_graph_trans (h1 h2 h3 : list Value) :
  same_graph h1 h2 -> same_graph h2 h3 -> same_graph h1 h3.
Proof. unfold same_graph. congruence. Qed.

Lemma same_graph_alter_grad (f : R -> R) (v : ref) (h : list Value) :
  same_graph h (alter_node (upd_grad f) v h).
Proof.
  unfold same_graph, skeleton, alter_node.
  rewrite list_fmap_insert. symmetry. apply list_insert_id'.
  intros Hv. rewrite list_lookup_fmap.
  destruct (lookup_lt_is_Some_2 h v) as [n Hn].
  { by rewrite length_fmap in Hv. }
  rewrite Hn, (node_lookup _ _ _ Hn). done.
Qed.

Lemma same_graph_rule_partials (h h' : list Value) (v : ref) :
  same_graph h h' -> rule_partials h v = rule_partials h' v.
Proof.
  intros H. unfold rule_partials. rewrite <- (same_graph_backward h h' v H).
  destruct (_backward (node h v)); cbn; by rewrite <- ?(same_graph_data h h' _ H).
Qed.

Lemma grad_bump (a m : ref) (x : R) (h : list Value) :
  (a < length h)%nat ->
  grad (node (bump a x h) m) = grad (node h m) + x * delta a m.
Proof.
  intros Ha. unfold bump, delta. destruct (decide (a = m)) as [->|Hne].
  - rewrite node_alter_eq by done. cbn. lra.
  - rewrite node_alter_ne by done. lra.
Qed.

Lemma data_bump (a m : ref) (x : R) (h : list Value) :
  data (node (bump a x h) m) = data (node h m).
Proof. symmetry. apply same_graph_data, same_graph_alter_grad. Qed.

Lemma length_bump (a : ref) (x : R) (h : list Value) : length (bump a x h) = length h.
Proof. apply length_alter_node. Qed.

(** ** Running one closure *)

Lemma call_backward_effect (s : state) (v : ref) :
  wf_node v (node (heap s) v) -> (v < length (heap s))%nat ->
  match rule_partials (heap s) v with
  | Some ps =>
      exists h', Value.call_backward v s = (Ok tt, mkState h' (rand s)) /\
        same_graph (heap s) h' /\
        forall m, grad (node h' m) =
                  grad (node (heap s) m) + weight_of ps m * grad (node (heap s) v)
  | None => exists r, Value.call_backward v s = (r, s) /\ r <> Ok tt
  end.
Proof.
  intros [Hout Hold _] Hv. unfold rule_partials, Value.call_backward.
  destruct s as [h r]. cbn [heap rand] in *.
  destruct (_backward (node h v)) as [|a o out|a o out|a k out|a t out|a out] eqn:Hc;
    cbn [closure_partials operands closure_out] in *.
  - exists h. split; [done|]. split; [done|]. intros m. unfold weight_of. rsum. lra.
  - specialize (Hout out eq_refl) as ->.
    assert (a < v)%nat as Ha by (apply Hold; by left).
    assert (o < v)%nat as Ho by (apply Hold; right; by left).
    exists (bump o (1 * grad (node (bump a (1 * grad (node h v)) h) v))
                 (bump a (1 * grad (node h v)) h)).
    split; [done|]. split.
    { eapply same_graph_trans; apply same_graph_alter_grad. }
    intros m. rewrite !grad_bump by (rewrite ?length_bump; lia).
    unfold weight_of, delta. rsum. cbn [fst snd].
    rewrite (decide_False (P := a = v)) by lia. lra.
  - specialize (Hout out eq_refl) as ->.
    assert (a < v)%nat as Ha by (apply Hold; by left).
    assert (o < v)%nat as Ho by (apply Hold; right; by left).
    exists (bump o (data (node (bump a (data (node h o) * grad (node h v)) h) a) *
                    grad (node (bump a (data (node h o) * grad (node h v)) h) v))
                 (bump a (data (node h o) * grad (node h v)) h)).
    split; [done|]. split.
    { eapply same_graph_trans; apply same_graph_alter_grad. }
    intros m. rewrite !grad_bump, data_bump by (rewrite ?length_bump; lia).
    unfold weight_of, delta. rsum. cbn [fst snd].
    rewrite (decide_False (P := a = v)) by lia. lra.
  - specialize (Hout out eq_refl) as ->.
    assert (a < v)%nat as Ha by (apply Hold; by left).
    assert (forall res, py_pow (data (node h a)) (k - 1) = res ->
      Value.call (BwPow a k v) (mkState h r) =
      match res with
      | Ok p => (Ok tt, mkState (bump a (k * p * grad (node h v)) h) r)
      | Raise e => (Raise e, mkState h r)
      | Unmodelled => (Unmodelled, mkState h r)
      end) as Hrun.
    { intros res Hres. unfold Value.call, bind at 1, get_data at 1. cbn [heap].
      unfold bind at 1, lift at 1. rewrite Hres. by destruct res. }
    unfold pow_partial.
    destruct (py_pow (data (node h a)) (k - 1)) as [p| |] eqn:Hp;
      rewrite (Hrun _ eq_refl).
    + exists (bump a (k * p * grad (node h v)) h).
      split; [done|]. split; [apply same_graph_alter_grad|].
      intros m. rewrite grad_bump by lia.
      unfold weight_of. rsum. cbn [fst snd]. lra.
    + eexists. split; [reflexivity | done].
    + eexists. split; [reflexivity | done].
  - specialize (Hout out eq_refl) as ->.
    assert (a < v)%nat as Ha by (apply Hold; by left).
    unfold Value.call, bind at 1, lift at 1. rewrite py_pow_square.
    exists (bump a ((1 - t * t) * grad (node h v)) h).
    split; [done|]. split; [apply same_graph_alter_grad|].
    intros m. rewrite grad_bump by lia.
    unfold weight_of. rsum. cbn [fst snd]. lra.
  - specialize (Hout out eq_refl) as ->.
    assert (a < v)%nat as Ha by (apply Hold; by left).
    exists (bump a (data (node h v) * grad (node h v)) h).
    split; [done|]. split; [apply same_graph_alter_grad|].
    intros m. rewrite grad_bump by lia.
    unfold weight_of. rsum. cbn [fst snd]. lra.
Qed.

(** ** The replay loop *)

Lemma wf_node_same (h h' : list Value) (v : ref) :
  same_graph h h' -> wf_node v (node h v) -> wf_node v (node h' v).
Proof.
  intros H [Ho Hold Hp].
  rewrite (same_graph_backward h h' v H) in Ho, Hold, Hp.
  rewrite (same_graph_prev h h' v H) in Hp. by split.
Qed.

Lemma same_graph_wf (h h' : list Value) :
  same_graph h h' -> wf_heap h -> wf_heap h'.
Proof.
  intros H Hwf i n Hi.
  assert (i < length h)%nat as Hlt.
  { rewrite (same_graph_length h h' H). by eapply lookup_lt_Some. }
  rewrite <- (node_lookup _ _ _ Hi). apply (wf_node_same h h' i H).
  by apply wf_heap_node.
Qed.

Lemma rule_partials_operand (h : list Value) (v o : ref) (c : R) (ps : list (ref * R)) :
  rule_partials h v = Some ps -> (o, c) ∈ ps -> o ∈ operands (_backward (node h v)).
Proof.
  unfold rule_partials.
  destruct (_backward (node h v)); cbn;
    try destruct (pow_partial _ _); intros [= <-] H;
    rewrite ?elem_of_cons, ?elem_of_nil in *; naive_solver.
Qed.

Lemma rule_weight_zero (h : list Value) (v m : ref) :
  wf_heap h -> m ∉ _prev (node h v) -> rule_weight h v m = 0.
Proof.
  intros Hwf Hm. unfold rule_weight, weight_of. apply Rsum_map_zero.
  intros [o c] Ho. cbn [fst snd]. unfold delta.
  destruct (decide (o = m)) as [->|]; [|lra].
  destruct (rule_partials h v) as [ps|] eqn:Hps; [|by apply elem_of_nil in Ho].
  cbn in Ho. apply (rule_partials_operand h v m c ps Hps) in Ho.
  destruct (decide (v < length h)%nat) as [Hv|Hv].
  - by apply wf_prev_operands in Ho.
  - rewrite node_outside in Ho by lia. by apply elem_of_nil in Ho.
Qed.

(** In the reversed listing, the operands of a node come after it. *)
Lemma sorted_children_later (h : list Value) (P Q : list ref) (c child : ref) :
  topo_sorted h (reverse (P ++ c :: Q)) ->
  child ∈ _prev (node h c) -> child ∈ Q.
Proof.
  intros Hs Hc.
  rewrite reverse_app, reverse_cons, <- app_assoc in Hs.
  destruct (Hs (length (reverse Q)) c) with (child := child) as (j & Hj & Hjc); [|done|].
  { rewrite lookup_app_r by lia. by rewrite Nat.sub_diag. }
  rewrite lookup_app_l in Hjc by done.
  apply elem_of_reverse. apply list_elem_of_lookup. by exists j.
Qed.

Lemma for_each_cons {A} (x : A) (xs : list A) (body : A -> M unit) (s : state) :
  for_each (x :: xs) body s =
  match body x s with
  | (Ok _, s') => for_each xs body s'
  | (Raise e, s') => (Raise e, s')
  | (Unmodelled, s') => (Unmodelled, s')
  end.
Proof. reflexivity. Qed.

(** The loop [for node in reversed(topo): node._backward()], from any point:
    it stops at the first closure that raises, and the invariant holds for
    the closures that ran. *)
Lemma replay_loop (h0 : list Value) (L : list ref) :
  wf_heap h0 -> NoDup L -> topo_sorted h0 (reverse L) ->
  (forall x, x ∈ L -> (x < length h0)%nat) ->
  forall Q P s, L = P ++ Q -> replay_inv h0 P (heap s) ->
    exists r s' P' Q',
      for_each Q Value.call_backward s = (r, s') /\
      rand s' = rand s /\
      L = P' ++ Q' /\
      P `prefix_of` P' /\
      replay_inv h0 P' (heap s') /\
      match Q' with
      | [] => r = Ok tt
      | c :: _ => r <> Ok tt /\ rule_partials h0 c = None
      end.
Proof.
  intros Hwf Hnd Hs Hin. induction Q as [|c Q IH]; intros P s HL Hinv.
  { exists (Ok tt), s, P, []. done. }
  pose proof Hinv as [Hsame Hacc].
  assert (c < length h0)%nat as Hc.
  { apply Hin. rewrite HL. apply elem_of_app. right. by left. }
  pose proof (call_backward_effect s c) as Heff.
  rewrite <- (same_graph_rule_partials h0 (heap s) c Hsame) in Heff.
  rewrite for_each_cons.
  destruct (rule_partials h0 c) as [ps|] eqn:Hps.
  - destruct Heff as (h' & Hrun & Hsame' & Hgrad).
    { apply (wf_node_same h0 _ c Hsame). by apply wf_heap_node. }
    { by rewrite <- (same_graph_length h0 _ Hsame). }
    rewrite Hrun.
    assert (forall m, weight_of ps m = rule_weight h0 c m) as Hw.
    { intros m. unfold rule_weight. by rewrite Hps. }
    assert (forall x, x ∈ P ++ [c] -> grad (node h' x) = grad (node (heap s) x)) as Hfix.
    { intros x Hx. rewrite Hgrad, Hw, rule_weight_zero; [lra | done |].
      intros Hxc. rewrite HL in Hs, Hnd.
      pose proof (sorted_children_later h0 P Q c x Hs Hxc) as HxQ.
      apply NoDup_app in Hnd as (_ & Hdis & Hnd2).
      apply elem_of_app in Hx as [Hx|Hx].
      - apply (Hdis x Hx). by right.
      - apply list_elem_of_singleton in Hx as ->.
        by apply NoDup_cons in Hnd2 as [? _]. }
    destruct (IH (P ++ [c]) (mkState h' (rand s))) as (r & s' & P' & Q' & Hr & Hrand & HL' & Hpre & Hinv' & Hend).
    { by rewrite <- app_assoc. }
    { split; [by eapply same_graph_trans|]. intros m. cbn [heap].
      rewrite (Rsum_map_ext _ (fun c0 => grad (node (heap s) c0) * rule_weight h0 c0 m)).
      2:{ intros x Hx. by rewrite Hfix. }
      rewrite fmap_app, Rsum_app, Hgrad, Hacc, Hw. rsum. lra. }
    exists r, s', P', Q'. split; [done|]. split; [done|]. split; [done|].
    split; [|done]. etrans; [|exact Hpre]. by apply prefix_app_r.
  - destruct Heff as (r & Hrun & Hr).
    { apply (wf_node_same h0 _ c Hsame). by apply wf_heap_node. }
    { by rewrite <- (same_graph_length h0 _ Hsame). }
    rewrite Hrun. exists r, s, P, (c :: Q).
    split; [by destruct r as [[]| |]|]. done.
Qed.

(** ** What depends on the graph only *)

Lemma same_graph_sorted (h h' : list Value) (topo : list ref) :
  same_graph h h' -> topo_sorted h topo -> topo_sorted h' topo.
Proof.
  intros H Hs i n Hi child Hc. apply (Hs i n Hi).
  by rewrite (same_graph_prev h h' n H).
Qed.

Lemma same_graph_build_topo (iter : gset ref -> list ref) (h h' : list Value)
    (fuel : nat) (v : ref) (st : gset ref * list ref) :
  same_graph h h' ->
  Value.build_topo iter fuel h v st = Value.build_topo iter fuel h' v st.
Proof.
  intros H. revert v st. induction fuel as [|fuel IH]; intros v [visited topo]; [done|].
  cbn [Value.build_topo]. destruct (decide (v ∈ visited)); [done|].
  rewrite <- (same_graph_prev h h' v H).
  generalize (Some ({[v]} ∪ visited, topo)).
  induction (iter (_prev (node h v))) as [|c cs IHcs]; intros acc; [done|].
  cbn [foldl]. destruct acc as [st'|].
  - rewrite IH. apply IHcs.
  - apply IHcs.
Qed.

Lemma same_graph_topo_of (iter : gset ref -> list ref) (h h' : list Value) (v : ref) :
  same_graph h h' -> Value.topo_of iter h v = Value.topo_of iter h' v.
Proof.
  intros H. unfold Value.topo_of.
  by rewrite (same_graph_length h h' H), (same_graph_build_topo iter h h' _ _ _ H).
Qed.

(** ** The closures compute the partial derivatives *)

Lemma tanh_formula_tanh (x : R) : tanh_formula x = Rtrigo_def.tanh x.
Proof.
  unfold tanh_formula, Rtrigo_def.tanh, sinh, cosh.
  replace (2 * x) with (x + x) by lra. rewrite exp_plus, exp_Ropp.
  pose proof (exp_pos x). field. nra.
Qed.

Lemma rule_weight_edge_weight (h : list Value) (v m : ref) :
  wf_heap h -> (v < length h)%nat -> consistent_at h v ->
  rule_weight h v m = edge_weight h v m.
Proof.
  intros Hwf Hv. pose proof (wf_out _ _ (wf_heap_node h v Hwf Hv)) as Hout.
  unfold consistent_at, rule_weight, edge_weight, rule_partials, local_partials.
  destruct (_backward (node h v)) as [|a o out|a o out|a k out|a t out|a out];
    cbn [closure_partials default]; try done.
  - intros _. destruct (pow_partial (data (node h a)) k); [done|].
    unfold weight_of. cbn [default from_option]. rsum. cbn [fst snd]. lra.
  - intros [-> _]. rewrite tanh_formula_tanh. done.
  - intros Hd. rewrite (Hout out eq_refl), Hd. done.
Qed.

(** ** The backward pass *)

Section BackwardPass.

Variable iter : gset ref -> list ref.
Hypothesis iter_enumerates : forall X, iter X ≡ₚ elements X.

Lemma grad_seeded (root m : ref) (h : list Value) :
  (root < length h)%nat ->
  grad (node (seeded root h) m) = if decide (m = root) then 1 else grad (node h m).
Proof.
  intros Hr. unfold seeded. destruct (decide (m = root)) as [->|Hne].
  - by rewrite node_alter_eq.
  - by rewrite node_alter_ne.
Qed.

(** Every run of [backward]: the traversal returns a listing, the root is
    seeded, and the closures run from the end of the listing until one
    raises. *)
Lemma backward_run (root : ref) (s : state) :
  wf_heap (heap s) -> (root < length (heap s))%nat ->
  exists topo r s' P' Q',
    Value.topo_of iter (heap s) root = Some topo /\
    NoDup topo /\ topo_sorted (heap s) topo /\
    (forall n, n ∈ topo <-> reachable (heap s) root n) /\
    (exists rest, reverse topo = root :: rest) /\
    Value.backward iter root s = (r, s') /\
    rand s' = rand s /\
    reverse topo = P' ++ Q' /\
    replay_inv (seeded root (heap s)) P' (heap s') /\
    match Q' with
    | [] => r = Ok tt
    | c :: _ => r <> Ok tt /\ rule_partials (heap s) c = None
    end.
Proof using iter_enumerates.
  intros Hwf Hroot.
  destruct (topo_of_spec iter iter_enumerates (heap s) root Hwf Hroot)
    as (topo & Htopo & Hnd & Hs & Hr & [before Hlast]).
  assert (same_graph (heap s) (seeded root (heap s))) as Hsame
    by apply same_graph_alter_grad.
  destruct (replay_loop (seeded root (heap s)) (reverse topo)) with
    (Q := reverse topo) (P := @nil ref) (s := mkState (seeded root (heap s)) (rand s))
    as (r & s' & P' & Q' & Hrun & Hrand & HL & _ & Hinv & Hend).
  - by apply (same_graph_wf (heap s)).
  - by rewrite reverse_Permutation.
  - rewrite reverse_involutive. by apply (same_graph_sorted (heap s)).
  - intros x Hx. apply elem_of_reverse, Hr in Hx.
    pose proof (reachable_le _ _ _ Hwf Hx).
    rewrite <- (same_graph_length _ _ Hsame). lia.
  - done.
  - split; [done|]. intros m. cbn. rsum. lra.
  - exists topo, r, s', P', Q'.
    split; [done|]. split; [done|]. split; [done|]. split; [done|].
    split; [exists (reverse before); by rewrite Hlast, reverse_app|].
    split.
    { unfold Value.backward. rewrite Htopo. unfold bind, set_grad. exact Hrun. }
    split; [done|]. split; [done|]. split; [done|].
    destruct Q' as [|c Q']; [done|].
    by rewrite (same_graph_rule_partials _ _ c Hsame).
Qed.

(** When [backward] returns, every gradient is its seed (1 for the root, the
    value it had before for any other node) plus the contribution of every
    listed consumer: nothing is reset, and nothing else is written. *)
Lemma backward_accumulates (root : ref) (s s' : state) :
  wf_heap (heap s) -> (root < length (heap s))%nat ->
  Value.backward iter root s = (Ok tt, s') ->
  exists topo,
    Value.topo_of iter (heap s) root = Some topo /\
    NoDup topo /\ topo_sorted (heap s) topo /\
    (forall n, n ∈ topo <-> reachable (heap s) root n) /\
    same_graph (heap s) (heap s') /\ rand s' = rand s /\
    forall m,
      grad (node (heap s') m) =
      (if decide (m = root) then 1 else grad (node (heap s) m)) +
      Rsum ((fun c => grad (node (heap s') c) * rule_weight (heap s) c m) <$> topo).
Proof using iter_enumerates.
  intros Hwf Hroot Hrun.
  destruct (backward_run root s Hwf Hroot)
    as (topo & r & s1 & P' & Q' & Htopo & Hnd & Hs & Hr & _ & Hrun' & Hrand & HL & Hinv & Hend).
  rewrite Hrun in Hrun'. injection Hrun' as <- <-.
  destruct Q' as [|c Q']; [|by destruct Hend].
  rewrite app_nil_r in HL. subst P'.
  assert (same_graph (heap s) (seeded root (heap s))) as Hsame
    by apply same_graph_alter_grad.
  exists topo. split; [done|]. split; [done|]. split; [done|]. split; [done|].
  split; [eapply same_graph_trans; [done | apply Hinv]|]. split; [done|].
  intros m. rewrite (ri_acc _ _ _ Hinv m), grad_seeded by done. f_equal.
  rewrite (Rsum_map_perm _ (reverse topo) topo) by apply reverse_Permutation.
  apply Rsum_map_ext. intros c _. unfold rule_weight.
  by rewrite (same_graph_rule_partials _ _ c Hsame).
Qed.

(** With zero gradients below the root and current values, what [backward]
    leaves at every reachable node is the sum over all paths. *)
Lemma backward_path_sums (root : ref) (s s' : state) :
  wf_heap (heap s) -> (root < length (heap s))%nat ->
  (forall n, reachable (heap s) root n -> consistent_at (heap s) n) ->
  (forall n, reachable (heap s) root n -> n <> root -> grad (node (heap s) n) = 0) ->
  Value.backward iter root s = (Ok tt, s') ->
  forall n, reachable (heap s) root n ->
    grad (node (heap s') n) = path_sum (heap s) root n.
Proof using iter_enumerates.
  intros Hwf Hroot Hcons Hzero Hrun.
  destruct (backward_accumulates root s s' Hwf Hroot Hrun)
    as (topo & _ & Hnd & Hs & Hr & Hsame & _ & Hacc).
  set (N := length (heap s)).
  assert (forall k n, (N - n <= k)%nat -> reachable (heap s) root n ->
            grad (node (heap s') n) = path_sum (heap s) root n) as Hind.
  { induction k as [|k IH]; intros n Hk Hn;
      pose proof (reachable_le _ _ _ Hwf Hn) as Hle; [unfold N in *; lia|].
    rewrite Hacc, (path_sum_reverse (heap s) root n N Hwf) by done.
    f_equal.
    { unfold delta. destruct (decide (n = root)) as [->|Hne].
      - by rewrite decide_True.
      - rewrite decide_False by done. by apply Hzero. }
    rewrite (Rsum_seq_support _ N topo Hnd).
    - apply Rsum_map_ext. intros c Hc. apply Hr in Hc.
      pose proof (reachable_le _ _ _ Hwf Hc) as Hcle.
      rewrite rule_weight_edge_weight; [| done | unfold N in *; lia | by apply Hcons].
      destruct (decide (n ∈ _prev (node (heap s) c))) as [Hin|Hnin].
      + pose proof (prev_older _ _ _ Hwf Hin). rewrite IH; [done | lia | done].
      + rewrite edge_weight_zero by done. lra.
    - intros x Hx. apply Hr in Hx. pose proof (reachable_le _ _ _ Hwf Hx).
      unfold N in *. lia.
    - intros x _ Hx. rewrite path_sum_unreachable; [lra | done |].
      intros Hxr. by apply Hx, Hr. }
  intros n Hn. apply (Hind N); [lia | done].
Qed.

(** When the power rule is defined at every power node below the root, no
    closure raises and [backward] returns. *)
Lemma backward_returns (root : ref) (s : state) :
  wf_heap (heap s) -> (root < length (heap s))%nat ->
  pow_defined (heap s) root ->
  exists s', Value.backward iter root s = (Ok tt, s').
Proof using iter_enumerates.
  intros Hwf Hroot Hpow.
  destruct (backward_run root s Hwf Hroot)
    as (topo & r & s1 & P' & Q' & Htopo & Hnd & Hs & Hr & _ & Hrun & Hrand & HL & Hinv & Hend).
  destruct Q' as [|c Q']; [exists s1; by rewrite Hrun, Hend|].
  destruct Hend as [_ Hnone]. exfalso.
  assert (reachable (heap s) root c) as Hc.
  { apply Hr, elem_of_reverse. rewrite HL. apply elem_of_app. right. by left. }
  unfold rule_partials in Hnone.
  destruct (_backward (node (heap s) c)) as [|a o out|a o out|a k out|a t out|a out] eqn:Hbw;
    try done.
  cbn in Hnone. destruct (Hpow c a k out Hc Hbw) as [p Hp]. by rewrite Hp in Hnone.
Qed.

(** Every run, returning or raising: only gradients are written, and every
    gradient is its seed plus the contributions of the closures that ran. *)
Lemma backward_effect (root : ref) (s : state) :
  wf_heap (heap s) -> (root < length (heap s))%nat ->
  exists r s' ran,
    Value.backward iter root s = (r, s') /\
    same_graph (heap s) (heap s') /\ rand s' = rand s /\
    NoDup ran /\
    (forall x, x ∈ ran -> reachable (heap s) root x) /\
    (rule_partials (heap s) root <> None -> root ∈ ran) /\
    forall m,
      grad (node (heap s') m) =
      (if decide (m = root) then 1 else grad (node (heap s) m)) +
      Rsum ((fun c => grad (node (heap s') c) * rule_weight (heap s) c m) <$> ran).
Proof using iter_enumerates.
  intros Hwf Hroot.
  destruct (backward_run root s Hwf Hroot)
    as (topo & r & s' & P' & Q' & Htopo & Hnd & Hs & Hr & [rest Hfirst] & Hrun & Hrand
        & HL & Hinv & Hend).
  assert (same_graph (heap s) (seeded root (heap s))) as Hsame
    by apply same_graph_alter_grad.
  exists r, s', P'. split; [done|].
  split; [eapply same_graph_trans; [done | apply Hinv]|]. split; [done|].
  assert (NoDup (reverse topo)) as Hndr by (by rewrite reverse_Permutation).
  rewrite HL in Hndr. split; [by apply NoDup_app in Hndr as (? & _)|].
  split.
  { intros x Hx. apply Hr, elem_of_reverse. rewrite HL. apply elem_of_app. by left. }
  split.
  { intros Hsome. destruct P' as [|c P'].
    - cbn in HL. rewrite Hfirst in HL. subst Q'. by destruct Hend.
    - rewrite Hfirst in HL. injection HL as -> _. by left. }
  intros m. rewrite (ri_acc _ _ _ Hinv m), grad_seeded by done. f_equal.
  apply Rsum_map_ext. intros c _. unfold rule_weight.
  by rewrite (same_graph_rule_partials _ _ c Hsame).
Qed.

End BackwardPass.

Lemma demo_no_pow (v self : ref) (k : R) (out : ref) :
  _backward (node (heap demo_state) v) <> BwPow self k out.
Proof. rewrite demo_heap. by destruct v as [|[|[|v]]]. Qed.

Lemma demo_consistent (v : ref) : consistent_at (heap demo_state) v.
Proof.
  destruct (decide (v < length (heap demo_state))%nat) as [Hv|Hv].
  - apply demo_graph_ok. lia.
  - unfold consistent_at. rewrite node_outside by lia. done.
Qed.

Lemma demo_zero_grads (v : ref) : grad (node (heap demo_state) v) = 0.
Proof. rewrite demo_heap. by destruct v as [|[|[|v]]]. Qed.

Lemma demo_path_sum : path_sum (heap demo_state) 2 0 = 7.
Proof.
  rewrite demo_heap. unfold path_sum, paths, local_partials.
  cbn [node lookup_total list_lookup_total _backward mbind list_bind fmap list_fmap
       decide_rel app data].
  vm_compute; lra.
Qed.

(** ** Fan-out: both operands the same node *)

Lemma Rsum_single {A} (f : A -> R) (l : list A) (c : A) :
  NoDup l -> c ∈ l -> (forall x, x ∈ l -> x <> c -> f x = 0) ->
  Rsum (f <$> l) = f c.
Proof.
  intros Hnd Hc Hz. apply elem_of_Permutation in Hc as [l' Hl'].
  rewrite (Rsum_map_perm f _ _ Hl'). rewrite Hl' in Hnd.
  apply NoDup_cons in Hnd as [Hcl' _].
  cbn [fmap list_fmap]. change (Rsum (?a :: ?l)) with (a + Rsum l).
  rewrite Rsum_map_zero; [lra|].
  intros x Hx. apply Hz; [rewrite Hl'; by right | by intros ->].
Qed.

(** [c = a * a; c.backward()], whatever the gradient of [a] was before and
    whether or not a closure below [a] raises: the two slots of [c] both add
    to [a]. *)
Lemma square_backward (iter : gset ref -> list ref) (a : ref) (s : state) :
  (forall X, iter X ≡ₚ elements X) ->
  wf_heap (heap s) -> (a < length (heap s))%nat ->
  exists c s1 r s2,
    Value.__mul__ a (Ref a) s = (Ok c, s1) /\
    _prev (node (heap s1) c) = {[a]} /\
    data (node (heap s1) c) = data (node (heap s) a) * data (node (heap s) a) /\
    Value.backward iter c s1 = (r, s2) /\
    (pow_defined (heap s1) c -> r = Ok tt) /\
    data (node (heap s2) a) = data (node (heap s) a) /\
    grad (node (heap s2) c) = 1 /\
    grad (node (heap s2) a) = grad (node (heap s) a) + 2 * data (node (heap s) a).
Proof.
  intros Hiter Hwf Ha. rewrite mul_run. cbn [promoted].
  set (h := heap s) in *. set (c := length h).
  set (nc := mkValue (data (node h a) * data (node h a)) 0 (BwMul a a c)
               (list_to_set [a; a]) op_mul EmptyString).
  set (s1 := mkState (h ++ [nc]) (rand s)).
  assert (wf_heap (heap s1)) as Hwf1.
  { apply wf_heap_snoc; [done|]. split; cbn; [by intros ? [= <-] | | done].
    intros x Hx. rewrite !elem_of_cons, elem_of_nil in Hx. unfold c. lia. }
  assert (node (heap s1) c = nc) as Hnc by apply node_app_new.
  assert (forall x, (x < c)%nat -> node (heap s1) x = node h x) as Hold.
  { intros x Hx. by apply node_app_l. }
  assert (c < length (heap s1))%nat as Hc.
  { cbn. rewrite length_app. cbn. unfold c. lia. }
  destruct (backward_effect iter Hiter c s1 Hwf1 Hc)
    as (r & s2 & ran & Hrun & Hsame & _ & Hnd & Hreach & Hin & Hacc).
  assert (c ∈ ran) as Hcran.
  { apply Hin. unfold rule_partials. by rewrite Hnc. }
  assert (forall x, x ∈ ran -> x <> c -> (x <= a)%nat) as Hbelow.
  { intros x Hx Hne. specialize (Hreach x Hx).
    inversion Hreach as [|? child ? Hchild Hr']; subst; [done|].
    rewrite Hnc in Hchild. cbn in Hchild.
    assert (child = a) as -> by set_solver.
    by apply (reachable_le (heap s1)). }
  assert (grad (node (heap s2) c) = 1) as Hgc.
  { rewrite Hacc, decide_True by done. rewrite Rsum_map_zero; [lra|].
    intros x Hx. rewrite rule_weight_zero; [lra | done |].
    intros Hcx. pose proof (prev_older _ _ _ Hwf1 Hcx).
    pose proof (reachable_le _ _ _ Hwf1 (Hreach x Hx)). lia. }
  exists c, s1, r, s2. split; [done|].
  split; [rewrite Hnc; cbn; set_solver|].
  split; [by rewrite Hnc|]. split; [done|].
  split.
  { intros Hpow. destruct (backward_returns iter Hiter c s1 Hwf1 Hc Hpow) as [s' Hs'].
    rewrite Hrun in Hs'. by injection Hs'. }
  split; [by rewrite <- (same_graph_data _ _ a Hsame), Hold|].
  split; [done|].
  rewrite Hacc, decide_False by (unfold c; lia).
  rewrite (Rsum_single _ ran c Hnd Hcran).
  - rewrite Hgc, Hold by done. unfold rule_weight, rule_partials. rewrite Hnc.
    unfold nc. cbn [_backward closure_partials].
    change (default [] (Some ?x)) with x.
    rewrite Hold by done.
    unfold weight_of, delta. rsum. cbn [fst snd]. destruct (decide (a = a)); [lra | done].
  - intros x Hx Hne. rewrite rule_weight_zero; [lra | done |].
    intros Hax. pose proof (prev_older _ _ _ Hwf1 Hax).
    specialize (Hbelow x Hx Hne). lia.
Qed.

(** C3: for a node [a] with gradient 0, after [c = a * a] and
    [c.backward()] the gradient of [a] is [2 * a.data], the sum of the two
    paths, although [c._prev] holds [a] once. *)
Theorem square_gradient_is_doubled (iter : gset ref -> list ref) (a : ref) (s : state) :
  (forall X, iter X ≡ₚ elements X) ->
  wf_heap (heap s) -> (a < length (heap s))%nat ->
  grad (node (heap s) a) = 0 ->
  exists c s1 r s2,
    Value.__mul__ a (Ref a) s = (Ok c, s1) /\
    _prev (node (heap s1) c) = {[a]} /\
    Value.backward iter c s1 = (r, s2) /\
    (pow_defined (heap s1) c -> r = Ok tt) /\
    grad (node (heap s2) a) = 2 * data (node (heap s2) a) /\
    (data (node (heap s2) a) <> 0 -> grad (node (heap s2) a) <> data (node (heap s2) a)).
Proof.
  intros Hiter Hwf Ha Hzero.
  destruct (square_backward iter a s Hiter Hwf Ha)
    as (c & s1 & r & s2 & Hmul & Hprev & _ & Hrun & Hret & Hdata & _ & Hgrad).
  exists c, s1, r, s2. do 4 (split; [done|]).
  rewrite Hgrad, Hzero, Hdata. split; [lra|]. intros Hnz. lra.
Qed.

Lemma square_gradient_is_doubled_witness :
  (forall X : gset ref, elements X ≡ₚ elements X) /\
  wf_heap (heap (one_leaf 3)) /\ (0 < length (heap (one_leaf 3)))%nat /\
  grad (node (heap (one_leaf 3)) 0) = 0 /\
  exists c s1 r s2,
    Value.__mul__ 0 (Ref 0%nat) (one_leaf 3) = (Ok c, s1) /\
    Value.backward elements c s1 = (r, s2) /\
    grad (node (heap s2) 0) = 2 * data (node (heap s2) 0).
Proof.
  split; [reflexivity|]. split; [apply graph_ok_one_leaf|].
  split; [cbn; lia|]. split; [reflexivity|].
  destruct (square_gradient_is_doubled elements 0 (one_leaf 3))
    as (c & s1 & r & s2 & Hmul & _ & Hrun & _ & Hgrad & _).
  - reflexivity.
  - apply graph_ok_one_leaf.
  - cbn. lia.
  - reflexivity.
  - by exists c, s1, r, s2.
Defined.

(** ** What [backward] writes *)

Lemma seeded_forgets (root : ref) (g : R) (h : list Value) :
  (root < length h)%nat ->
  seeded root (alter_node (upd_grad (fun _ => g)) root h) = seeded root h.
Proof.
  intros Hr. unfold seeded. unfold alter_node at 1.
  rewrite node_alter_eq by done. unfold alter_node.
  by rewrite list_insert_insert_eq.
Qed.

(** The gradient the root had before the call plays no part. *)
Lemma backward_forgets_root_grad (iter : gset ref -> list ref) (root : ref) (g : R) (s : state) :
  (forall X, iter X ≡ₚ elements X) ->
  wf_heap (heap s) -> (root < length (heap s))%nat ->
  Value.backward iter root (with_heap (alter_node (upd_grad (fun _ => g)) root) s) =
  Value.backward iter root s.
Proof.
  intros Hiter Hwf Hr. unfold Value.backward. cbn [heap with_heap].
  rewrite <- (same_graph_topo_of iter (heap s) _ root (same_graph_alter_grad _ root (heap s))).
  destruct (topo_of_spec iter Hiter (heap s) root Hwf Hr) as (topo & -> & _).
  unfold bind, set_grad, with_heap. cbn [heap rand].
  fold (seeded root (alter_node (upd_grad (fun _ => g)) root (heap s))).
  fold (seeded root (heap s)). by rewrite seeded_forgets.
Qed.

(** C8: a run of [backward], returning or raising, writes gradients only;
    the root's gradient is overwritten by 1 whatever it was before; every
    other gradient is the value it had before plus what the closures that ran
    added to it, so nothing is reset to 0 (zeroing is left to the caller); a
    node that is not reachable from the root keeps its gradient. *)
Theorem backward_writes_only_by_accumulation
    (iter : gset ref -> list ref) (root : ref) (s : state) :
  (forall X, iter X ≡ₚ elements X) ->
  wf_heap (heap s) -> (root < length (heap s))%nat ->
  exists r s' ran,
    Value.backward iter root s = (r, s') /\
    same_graph (heap s) (heap s') /\ rand s' = rand s /\
    (forall x, x ∈ ran -> reachable (heap s) root x) /\
    (forall m,
       grad (node (heap s') m) =
       (if decide (m = root) then 1 else grad (node (heap s) m)) +
       Rsum ((fun c => grad (node (heap s') c) * rule_weight (heap s) c m) <$> ran)) /\
    grad (node (heap s') root) = 1 /\
    (forall m, ~ reachable (heap s) root m ->
       grad (node (heap s') m) = grad (node (heap s) m)) /\
    (forall g,
       Value.backward iter root
         (with_heap (alter_node (upd_grad (fun _ => g)) root) s) = (r, s')).
Proof.
  intros Hiter Hwf Hroot.
  destruct (backward_effect iter Hiter root s Hwf Hroot)
    as (r & s' & ran & Hrun & Hsame & Hrand & Hnd & Hreach & _ & Hacc).
  exists r, s', ran. do 5 (split; [done|]). split; [|split].
  - rewrite Hacc, decide_True by done. rewrite Rsum_map_zero; [lra|].
    intros c Hc. rewrite rule_weight_zero; [lra | done |].
    intros Hin. pose proof (prev_older _ _ _ Hwf Hin).
    pose proof (reachable_le _ _ _ Hwf (Hreach c Hc)). lia.
  - intros m Hm. rewrite Hacc.
    rewrite decide_False by (intros ->; apply Hm, reach_refl).
    rewrite Rsum_map_zero; [lra|].
    intros c Hc. rewrite rule_weight_zero; [lra | done |].
    intros Hin. apply Hm. eapply reachable_trans; [by apply Hreach|].
    eapply reach_step; [done | apply reach_refl].
  - intros g. by rewrite backward_forgets_root_grad.
Qed.

Lemma backward_writes_only_by_accumulation_witness :
  (forall X : gset ref, elements X ≡ₚ elements X) /\
  wf_heap (heap demo_state) /\ (1 < length (heap demo_state))%nat /\
  exists r s',
    Value.backward elements 1 demo_state = (r, s') /\
    same_graph (heap demo_state) (heap s') /\
    grad (node (heap s') 2) = grad (node (heap demo_state) 2).
Proof.
  split; [reflexivity|]. split; [apply demo_graph_ok|]. split; [cbn; lia|].
  destruct (backward_writes_only_by_accumulation elements 1 demo_state)
    as (r & s' & ran & Hrun & Hsame & _ & _ & _ & _ & Hframe & _).
  - reflexivity.
  - apply demo_graph_ok.
  - cbn. lia.
  - exists r, s'. split; [done|]. split; [done|]. apply Hframe.
    intros Hr. pose proof (reachable_le _ _ _ (proj1 demo_graph_ok) Hr). lia.
Defined.

(** Without zeroing, the gradient a node already carries stays in the
    result: after [c = a * a; c.backward()] the gradient of [a] is what it
    was plus [2 * a.data]. *)
Lemma stale_gradient_is_kept (a : ref) (s : state) :
  wf_heap (heap s) -> (a < length (heap s))%nat ->
  exists c s1 r s2,
    Value.__mul__ a (Ref a) s = (Ok c, s1) /\
    Value.backward elements c s1 = (r, s2) /\
    grad (node (heap s2) a) = grad (node (heap s) a) + 2 * data (node (heap s) a).
Proof.
  intros Hwf Ha.
  destruct (square_backward elements a s) as (c & s1 & r & s2 & Hmul & _ & _ & Hrun & _ & _ & _ & Hg);
    [reflexivity | done | done |].
  by exists c, s1, r, s2.
Qed.

(** ** Neurons *)



















(** ** Constructing parameters *)











(** ** Layers and the MLP *)










(** ** Derivatives of the operations *)

Lemma derivable_pt_lim_powerRZ (y0 : R) (z : Z) :
  y0 <> 0 ->
  derivable_pt_lim (fun y => powerRZ y z) y0 (IZR z * powerRZ y0 (z - 1)).
Proof.
  intros Hy. destruct z as [|p|p].
  - cbn [powerRZ]. rewrite Rmult_0_l. apply (derivable_pt_lim_const 1).
  - cbn [powerRZ].
    replace (IZR (Z.pos p) * powerRZ y0 (Z.pos p - 1))
      with (INR (Pos.to_nat p) * y0 ^ Init.Nat.pred (Pos.to_nat p)).
    + apply derivable_pt_lim_pow.
    + rewrite INR_IZR_INZ, positive_nat_Z. f_equal.
      rewrite pow_powerRZ. f_equal. lia.
  - cbn [powerRZ].
    pose proof (Pos2Nat.is_pos p) as Hp.
    destruct (Pos.to_nat p) as [|m] eqn:Hm; [lia|].
    assert (y0 ^ m <> 0) as Hpm by (by apply pow_nonzero).
    eapply derivable_pt_lim_ext with (f := (fct_cte 1 / (fun y => y ^ S m))%F).
    { intros y. unfold div_fct, fct_cte. lra. }
    replace (IZR (Z.neg p) * powerRZ y0 (Z.neg p - 1))
      with ((0 * y0 ^ S m - INR (S m) * y0 ^ Init.Nat.pred (S m) * fct_cte 1 y0) /
            Rsqr (y0 ^ S m)).
    + apply derivable_pt_lim_div;
        [apply derivable_pt_lim_const | apply derivable_pt_lim_pow | by apply pow_nonzero].
    + replace (Z.neg p - 1)%Z with (- Z.of_nat (S (S m)))%Z by lia.
      rewrite powerRZ_neg', <- pow_powerRZ.
      replace (IZR (Z.neg p)) with (- INR (S m)).
      2:{ rewrite INR_IZR_INZ, <- Hm, positive_nat_Z. by rewrite <- opp_IZR. }
      unfold fct_cte, Rsqr. cbn [Init.Nat.pred pow]. field. done.
Qed.

(** The power, as a function of the base. *)
Lemma pow_value_pos (y k : R) : 0 < y -> pow_value y k = Rpower y k.
Proof. intros Hy. unfold pow_value. by rewrite py_pow_pos. Qed.

Lemma pow_value_int (y : R) (z : Z) : y <> 0 -> pow_value y (IZR z) = powerRZ y z.
Proof. intros Hy. unfold pow_value. by rewrite py_pow_int. Qed.

Lemma pow_value_nat (y : R) (m : nat) : (1 <= m)%nat -> pow_value y (INR m) = y ^ m.
Proof.
  intros Hm. destruct (Req_dec_T y 0) as [->|Hy].
  - unfold pow_value, py_pow. destruct (Req_dec_T 0 0); [|done].
    assert (0 < INR m) by (apply lt_0_INR; lia).
    destruct (Rlt_dec (INR m) 0); [lra|]. destruct (Req_dec_T (INR m) 0); [lra|].
    destruct m; [lia|]. cbn. lra.
  - rewrite INR_IZR_INZ, pow_value_int by done. by rewrite pow_powerRZ.
Qed.

Lemma pow_value_derivative (y0 k : R) :
  smooth_at y0 k ->
  exists p, pow_partial y0 k = Some p /\
    derivable_pt_lim (fun y => pow_value y k) y0 p.
Proof.
  intros [Hpos|[[Hnz [z ->]]|[-> (m & Hm & ->)]]]; unfold pow_partial.
  - rewrite py_pow_pos by done. eexists. split; [done|].
    apply (derivable_pt_lim_locally_ext (fun y => Rpower y k) _ y0 (y0 / 2) (y0 + 1));
      [lra | | by apply derivable_pt_lim_power].
    intros y Hy. rewrite pow_value_pos; [done | lra].
  - replace (IZR z - 1) with (IZR (z - 1)) by (by rewrite minus_IZR).
    rewrite py_pow_int by done. eexists. split; [done|].
    destruct (Rlt_dec 0 y0) as [Hpos|Hneg].
    + apply (derivable_pt_lim_locally_ext (fun y => powerRZ y z) _ y0 (y0 / 2) (y0 + 1));
        [lra | | by apply derivable_pt_lim_powerRZ].
      intros y Hy. rewrite pow_value_int; [done | lra].
    + apply (derivable_pt_lim_locally_ext (fun y => powerRZ y z) _ y0 (y0 - 1) (y0 / 2));
        [lra | | by apply derivable_pt_lim_powerRZ].
      intros y Hy. rewrite pow_value_int; [done | lra].
  - exists (INR m * 0 ^ Init.Nat.pred m). split.
    + destruct m as [|[|m]]; [lia | |].
      * replace (INR 1 - 1) with 0 by (cbn; lra).
        unfold py_pow. destruct (Req_dec_T 0 0); [|done].
        destruct (Rlt_dec 0 0); [lra|]. destruct (Req_dec_T 0 0); [|done].
        cbn. do 2 f_equal.
      * replace (INR (S (S m)) - 1) with (INR (S m)) by (rewrite (S_INR (S m)); lra).
        assert (0 < INR (S m)) by (apply lt_0_INR; lia).
        unfold py_pow. destruct (Req_dec_T 0 0); [|done].
        destruct (Rlt_dec (INR (S m)) 0); [lra|].
        destruct (Req_dec_T (INR (S m)) 0); [lra|].
        do 2 f_equal. cbn [Init.Nat.pred pow]. lra.
    + apply (derivable_pt_lim_ext (fun y => y ^ m)); [|apply derivable_pt_lim_pow].
      intros y. by rewrite pow_value_nat.
Qed.

Lemma tanh_formula_derivative (y0 : R) :
  derivable_pt_lim tanh_formula y0 (1 - Rsqr (Rtrigo_def.tanh y0)).
Proof.
  apply (derivable_pt_lim_ext (sinh / cosh)%F).
  { intros y. unfold div_fct. by rewrite tanh_formula_tanh. }
  assert (cosh y0 <> 0) as Hc.
  { unfold cosh. pose proof (exp_pos y0). pose proof (exp_pos (- y0)). lra. }
  replace (1 - Rsqr (Rtrigo_def.tanh y0))
    with ((cosh y0 * cosh y0 - sinh y0 * sinh y0) / Rsqr (cosh y0)).
  - apply derivable_pt_lim_div;
      [apply derivable_pt_lim_sinh | apply derivable_pt_lim_cosh | done].
  - unfold Rtrigo_def.tanh, Rsqr. field. done.
Qed.

(** ** The path sum is the derivative *)

Lemma operand_older (h : list Value) (v a : ref) :
  wf_heap h -> a ∈ operands (_backward (node h v)) -> (a < v)%nat /\ a ∈ _prev (node h v).
Proof.
  intros Hwf Ha. destruct (decide (v < length h)%nat) as [Hv|Hv].
  - split; [by apply (wf_operand_lt h v a Hwf Hv) | by apply wf_prev_operands].
  - rewrite node_outside in Ha by lia. by apply elem_of_nil in Ha.
Qed.

Lemma revalue_fuel_step (h : list Value) (n : ref) (x : R) (fuel : nat) (v : ref) :
  wf_heap h -> (v <= fuel)%nat -> revalue (S fuel) h n x v = revalue fuel h n x v.
Proof.
  intros Hwf. revert v. induction fuel as [|fuel IH]; intros v Hv.
  - cbn [revalue]. destruct (decide (v = n)); [done|].
    pose proof (operand_older h v) as Hop.
    destruct (_backward (node h v)); cbn in Hop; try done;
      (assert (self < v)%nat by (apply Hop; [done | by left]); lia).
  - change (revalue (S (S fuel)) h n x v) with
      (if decide (v = n) then x else
       match _backward (node h v) with
       | BwNone => data (node h v)
       | BwAdd self other _ => revalue (S fuel) h n x self + revalue (S fuel) h n x other
       | BwMul self other _ => revalue (S fuel) h n x self * revalue (S fuel) h n x other
       | BwPow self k _ => pow_value (revalue (S fuel) h n x self) k
       | BwTanh self _ _ => tanh_formula (revalue (S fuel) h n x self)
       | BwExp self _ => exp (revalue (S fuel) h n x self)
       end).
    change (revalue (S fuel) h n x v) with
      (if decide (v = n) then x else
       match _backward (node h v) with
       | BwNone => data (node h v)
       | BwAdd self other _ => revalue fuel h n x self + revalue fuel h n x other
       | BwMul self other _ => revalue fuel h n x self * revalue fuel h n x other
       | BwPow self k _ => pow_value (revalue fuel h n x self) k
       | BwTanh self _ _ => tanh_formula (revalue fuel h n x self)
       | BwExp self _ => exp (revalue fuel h n x self)
       end).
    destruct (decide (v = n)); [done|].
    pose proof (operand_older h v) as Hop.
    destruct (_backward (node h v)); cbn [operands] in Hop; try done;
      rewrite ?IH; try done;
      match goal with
      | |- (?a <= fuel)%nat =>
          assert (a < v)%nat by (apply Hop; [done | rewrite !elem_of_cons; tauto]); lia
      end.
Qed.

Lemma revalue_fuel (h : list Value) (n : ref) (x : R) (fuel : nat) (v : ref) :
  wf_heap h -> (v <= fuel)%nat -> revalue fuel h n x v = root_value h v n x.
Proof.
  intros Hwf Hv. unfold root_value. induction fuel as [|fuel IH].
  - by replace v with 0%nat by lia.
  - destruct (decide (v = S fuel)) as [->|Hne]; [done|].
    rewrite revalue_fuel_step by (done || lia). apply IH. lia.
Qed.

Lemma root_value_self (h : list Value) (n : ref) (x : R) : root_value h n n x = x.
Proof. unfold root_value. destruct n; cbn [revalue]; by rewrite decide_True. Qed.

(** One step of the forward formulas. *)
Lemma root_value_step (h : list Value) (v n : ref) (x : R) :
  wf_heap h -> v <> n ->
  root_value h v n x =
  match _backward (node h v) with
  | BwNone => data (node h v)
  | BwAdd self other _ => root_value h self n x + root_value h other n x
  | BwMul self other _ => root_value h self n x * root_value h other n x
  | BwPow self k _ => pow_value (root_value h self n x) k
  | BwTanh self _ _ => tanh_formula (root_value h self n x)
  | BwExp self _ => exp (root_value h self n x)
  end.
Proof.
  intros Hwf Hne. unfold root_value at 1.
  rewrite <- (revalue_fuel_step h n x v v Hwf) by lia.
  cbn [revalue]. rewrite decide_False by done.
  pose proof (operand_older h v) as Hop.
  destruct (_backward (node h v)); cbn [operands] in Hop; try done;
    rewrite ?(revalue_fuel h n x v); try done;
    match goal with
    | |- (?a <= v)%nat =>
        assert (a < v)%nat by (apply Hop; [done | rewrite !elem_of_cons; tauto]); lia
    end.
Qed.

Lemma consistent_operands (h : list Value) (v a : ref) :
  wf_heap h -> (forall u, reachable h v u -> consistent_at h u) ->
  a ∈ operands (_backward (node h v)) ->
  (a < v)%nat /\ forall u, reachable h a u -> consistent_at h u.
Proof.
  intros Hwf Hc Ha. destruct (operand_older h v a Hwf Ha) as [Hlt Hprev].
  split; [done|]. intros u Hu. apply Hc. by eapply reach_step.
Qed.

(** With current values, replacing the value of [n] by itself changes
    nothing. *)
Lemma root_value_current (h : list Value) (v n : ref) :
  wf_heap h -> (forall u, reachable h v u -> consistent_at h u) ->
  root_value h v n (data (node h n)) = data (node h v).
Proof.
  intros Hwf. induction (lt_wf v) as [v _ IH]. intros Hc.
  destruct (decide (v = n)) as [->|Hne]; [apply root_value_self|].
  rewrite root_value_step by done.
  pose proof (Hc v (reach_refl h v)) as Hv. unfold consistent_at in Hv.
  pose proof (consistent_operands h v) as Hop.
  destruct (_backward (node h v)) as [|a o out|a o out|a k out|a t out|a out];
    cbn [operands] in Hop; [done|..].
  - destruct (Hop a Hwf Hc) as [? ?]; [by left|].
    destruct (Hop o Hwf Hc) as [? ?]; [right; by left|].
    rewrite !IH by done. done.
  - destruct (Hop a Hwf Hc) as [? ?]; [by left|].
    destruct (Hop o Hwf Hc) as [? ?]; [right; by left|].
    rewrite !IH by done. done.
  - destruct (Hop a Hwf Hc) as [? ?]; [by left|].
    rewrite IH by done. unfold pow_value. by rewrite Hv.
  - destruct (Hop a Hwf Hc) as [? ?]; [by left|].
    rewrite IH by done. destruct Hv as [-> ->]. done.
  - destruct (Hop a Hwf Hc) as [? ?]; [by left|].
    rewrite IH by done. done.
Qed.

Lemma pow_smooth_operand (h : list Value) (v a : ref) :
  wf_heap h -> pow_smooth h v -> a ∈ operands (_backward (node h v)) -> pow_smooth h a.
Proof.
  intros Hwf Hs Ha u self k out Hu Hbw. apply (Hs u self k out); [|done].
  destruct (operand_older h v a Hwf Ha) as [_ Hprev]. by eapply reach_step.
Qed.

(** The root's value is differentiable in the value of [n], and its
    derivative is the path sum. *)
Lemma root_value_derivative (h : list Value) (v n : ref) :
  wf_heap h -> (forall u, reachable h v u -> consistent_at h u) -> pow_smooth h v ->
  derivable_pt_lim (root_value h v n) (data (node h n)) (path_sum h v n).
Proof.
  intros Hwf. induction (lt_wf v) as [v _ IH]. intros Hc Hs.
  destruct (decide (v = n)) as [->|Hne].
  { rewrite path_sum_self by done.
    apply (derivable_pt_lim_ext id); [|apply derivable_pt_lim_id].
    intros x. by rewrite root_value_self. }
  rewrite path_sum_unfold by done. unfold delta. rewrite decide_False by done.
  pose proof (consistent_operands h v) as Hop.
  pose proof (pow_smooth_operand h v) as Hpo.
  pose proof (root_value_step h v n) as Hstep.
  pose proof (Hs v) as Hsv.
  unfold local_partials.
  destruct (_backward (node h v)) as [|a o out|a o out|a k out|a t out|a out];
    cbn [operands] in Hop, Hpo; cbn [fmap list_fmap fst snd]; rsum.
  - apply (derivable_pt_lim_ext (fct_cte (data (node h v)))).
    { intros x. by rewrite Hstep. }
    rewrite Rplus_0_l. apply derivable_pt_lim_const.
  - destruct (Hop a Hwf Hc) as [Ha Hca]; [by left|].
    destruct (Hop o Hwf Hc) as [Ho Hco]; [right; by left|].
    apply (derivable_pt_lim_ext (root_value h a n + root_value h o n)%F).
    { intros x. by rewrite Hstep. }
    replace (0 + (1 * path_sum h a n + (1 * path_sum h o n + 0)))
      with (path_sum h a n + path_sum h o n) by lra.
    apply derivable_pt_lim_plus; apply IH; try done; apply Hpo; try done.
    + by left.
    + right; by left.
  - destruct (Hop a Hwf Hc) as [Ha Hca]; [by left|].
    destruct (Hop o Hwf Hc) as [Ho Hco]; [right; by left|].
    apply (derivable_pt_lim_ext (root_value h a n * root_value h o n)%F).
    { intros x. by rewrite Hstep. }
    replace (0 + (data (node h o) * path_sum h a n + (data (node h a) * path_sum h o n + 0)))
      with (path_sum h a n * root_value h o n (data (node h n)) +
            root_value h a n (data (node h n)) * path_sum h o n)
      by (rewrite !root_value_current by done; lra).
    apply derivable_pt_lim_mult; apply IH; try done; apply Hpo; try done.
    + by left.
    + right; by left.
  - destruct (Hop a Hwf Hc) as [Ha Hca]; [by left|].
    destruct (pow_value_derivative (data (node h a)) k) as (p & Hp & Hd).
    { by apply (Hsv a k out); [apply reach_refl|]. }
    apply (derivable_pt_lim_ext (comp (fun y => pow_value y k) (root_value h a n))).
    { intros x. by rewrite Hstep. }
    rewrite Hp. cbn [default from_option].
    replace (0 + (Datatypes.id p * path_sum h a n + 0)) with (p * path_sum h a n)
      by (unfold Datatypes.id; lra).
    apply derivable_pt_lim_comp.
    + apply IH; try done. apply Hpo; [done | done | by left].
    + by rewrite root_value_current.
  - destruct (Hop a Hwf Hc) as [Ha Hca]; [by left|].
    apply (derivable_pt_lim_ext (comp tanh_formula (root_value h a n))).
    { intros x. by rewrite Hstep. }
    replace (0 + ((1 - Rsqr (Rtrigo_def.tanh (data (node h a)))) * path_sum h a n + 0))
      with ((1 - Rsqr (Rtrigo_def.tanh (data (node h a)))) * path_sum h a n) by lra.
    apply derivable_pt_lim_comp.
    + apply IH; try done. apply Hpo; [done | done | by left].
    + rewrite root_value_current by done. apply tanh_formula_derivative.
  - destruct (Hop a Hwf Hc) as [Ha Hca]; [by left|].
    apply (derivable_pt_lim_ext (comp exp (root_value h a n))).
    { intros x. by rewrite Hstep. }
    replace (0 + (exp (data (node h a)) * path_sum h a n + 0))
      with (exp (data (node h a)) * path_sum h a n) by lra.
    apply derivable_pt_lim_comp.
    + apply IH; try done. apply Hpo; [done | done | by left].
    + rewrite root_value_current by done. apply derivable_pt_lim_exp.
Qed.

Lemma pow_smooth_defined (h : list Value) (root : ref) :
  pow_smooth h root -> pow_defined h root.
Proof.
  intros Hs v self k out Hv Hbw.
  destruct (pow_value_derivative _ k (Hs v self k out Hv Hbw)) as (p & Hp & _).
  by exists p.
Qed.

(** ** The chain rule *)

(** C1: on a graph the operators built, with current values and a gradient
    of 0 at every node but the root: [backward] returns whenever the power
    rule is defined at the power nodes below the root; whenever it returns,
    every node reachable from the root has as gradient the sum, over all
    paths from the root down to it, of the products of the local partial
    derivatives along the path; and where the powers are differentiable,
    that gradient is the derivative of the root's value as a function of the
    node's value. *)
Theorem backward_chain_rule (iter : gset ref -> list ref) (root : ref) (s : state) :
  (forall X, iter X ≡ₚ elements X) ->
  wf_heap (heap s) -> (root < length (heap s))%nat ->
  (forall n, reachable (heap s) root n -> consistent_at (heap s) n) ->
  (forall n, n <> root -> grad (node (heap s) n) = 0) ->
  (pow_defined (heap s) root -> exists s', Value.backward iter root s = (Ok tt, s')) /\
  (forall s', Value.backward iter root s = (Ok tt, s') ->
     forall n, reachable (heap s) root n ->
       grad (node (heap s') n) = path_sum (heap s) root n) /\
  (pow_smooth (heap s) root ->
     exists s', Value.backward iter root s = (Ok tt, s') /\
       forall n, reachable (heap s) root n ->
         derivable_pt_lim (root_value (heap s) root n) (data (node (heap s) n))
                          (grad (node (heap s') n))).
Proof.
  intros Hiter Hwf Hroot Hcons Hzero.
  assert (forall s', Value.backward iter root s = (Ok tt, s') ->
     forall n, reachable (heap s) root n ->
       grad (node (heap s') n) = path_sum (heap s) root n) as Hsum.
  { intros s' Hrun. apply (backward_path_sums iter Hiter root s s'); try done.
    intros n _ Hn. by apply Hzero. }
  split; [by apply backward_returns|]. split; [done|].
  intros Hsmooth.
  destruct (backward_returns iter Hiter root s Hwf Hroot (pow_smooth_defined _ _ Hsmooth))
    as [s' Hrun].
  exists s'. split; [done|]. intros n Hn.
  rewrite (Hsum s' Hrun n Hn). by apply root_value_derivative.
Qed.

Lemma backward_chain_rule_witness :
  (forall X : gset ref, elements X ≡ₚ elements X) /\
  wf_heap (heap demo_state) /\ (2 < length (heap demo_state))%nat /\
  (forall n, reachable (heap demo_state) 2 n -> consistent_at (heap demo_state) n) /\
  (forall n, n <> 2%nat -> grad (node (heap demo_state) n) = 0) /\
  pow_smooth (heap demo_state) 2 /\
  exists s', Value.backward elements 2 demo_state = (Ok tt, s') /\
    grad (node (heap s') 0) = 7 /\
    derivable_pt_lim (root_value (heap demo_state) 2 0) 3 7.
Proof.
  assert (pow_smooth (heap demo_state) 2) as Hpow.
  { intros v self k out _ Hbw. by destruct (demo_no_pow v self k out). }
  assert (reachable (heap demo_state) 2 0) as Hreach.
  { eapply reach_step; [|apply reach_refl]. rewrite demo_heap. cbn. set_solver. }
  destruct (backward_chain_rule elements 2 demo_state) as (_ & Hsum & Hder).
  - reflexivity.
  - apply demo_graph_ok.
  - cbn. lia.
  - intros n _. apply demo_consistent.
  - intros n _. apply demo_zero_grads.
  - split; [reflexivity|]. split; [apply demo_graph_ok|]. split; [cbn; lia|].
    split; [intros n _; apply demo_consistent|].
    split; [intros n _; apply demo_zero_grads|]. split; [done|].
    destruct (Hder Hpow) as (s' & Hrun & Hd). exists s'. split; [done|].
    pose proof (Hsum s' Hrun 0%nat Hreach) as Hg. rewrite demo_path_sum in Hg.
    split; [done|]. specialize (Hd 0%nat Hreach). by rewrite Hg in Hd.
Defined.

(** ** Runs on concrete graphs *)

Example demo_order : Value.topo_of elements (heap demo_state) 2 = Some [0; 1; 2]%nat.
Proof. vm_compute. reflexivity. Qed.

(** [d = a * a + a] at [a = 3]: the gradient of [a] is [2 * 3 + 1]. *)
Example demo_backward_grads :
  let s' := snd (Value.backward elements 2 demo_state) in
  fst (Value.backward elements 2 demo_state) = Ok tt /\
  grad (node (heap s') 2) = 1 /\
  grad (node (heap s') 1) = 1 /\
  grad (node (heap s') 0) = 7.
Proof. vm_compute. repeat split; lra. Qed.

Lemma py_pow_zero_zero : py_pow 0 0 = Ok 1.
Proof.
  unfold py_pow. destruct (Req_dec_T 0 0); [|done].
  destruct (Rlt_dec 0 0); [lra|]. by destruct (Req_dec_T 0 0).
Qed.

Example zero_pow_built :
  Value.__pow__ 0 (Num 0) (one_leaf 0) = (Ok 1%nat, zero_pow_state).
Proof. by rewrite (pow_run 0 0 1) by apply py_pow_zero_zero. Qed.

(** [a ** 0] at [a = 0] has the value 1, and its closure divides by zero:
    [backward] raises after seeding the root. *)
Example zero_pow_backward_raises :
  Value.backward elements 1 zero_pow_state =
  (Raise ZeroDivisionError,
   mkState (seeded 1 (heap zero_pow_state)) (rand zero_pow_state)).
Proof.
  unfold Value.backward.
  replace (Value.topo_of elements (heap zero_pow_state) 1) with (Some [0; 1]%nat)
    by (vm_compute; reflexivity).
  unfold bind at 1, set_grad at 1. change (reverse [0; 1]%nat) with [1; 0]%nat.
  rewrite for_each_cons. unfold Value.call_backward at 1.
  cbn [with_heap heap zero_pow_state].
  change (_backward (node (alter_node (upd_grad (fun _ => 1)) 1
            [leaf 0; mkValue 1 0 (BwPow 0 0 1) (list_to_set [0%nat]) (op_pow 0) EmptyString]) 1))
    with (BwPow 0 0 1).
  unfold Value.call, bind at 1, get_data at 1. unfold bind at 1, lift at 1.
  cbn [heap]. change (data (node _ 0)) with 0.
  by rewrite py_pow_zero_neg by lra.
Qed.
